(** * Elimination particle simulation: a shallow embedding of [src/src/main.cpp]

    The per-frame engine of the simulation ([checkCollision],
    [removeParticle], [handleCollision], [winCheck], [updateParticles],
    [Input], [MainLoop], [VertexSpecification]) is transcribed below; the
    last part adds what [PreDraw] and [Draw] hand to the renderer, and
    [LoadShaderAsString].

    - A C++ [float] is an IEEE-754 binary32 value: [spec_float] with
      precision 24 and maximal exponent 128, every operation rounded to
      nearest-even on its own (no fused multiply-add contraction).
    - The globals of the translation unit are the fields of [World]; every
      function takes the world and returns the updated one.
    - [std::vector] is a [list]; [v[i]] is stdpp's lookup, [v[i] = a] is
      stdpp's insert (which leaves the list alone out of range, where C++
      has undefined behaviour; [vertexData_writes_in_range] shows that the
      writes of [updateParticles] stay in range in every reachable world).
    - Randomness ([rand()], [std::mt19937]) and the clock are inputs. *)

From Stdlib Require Import ZArith Lia Bool SpecFloat.
From Stdlib Require Ascii String.
From stdpp Require Import base list.

(** ** binary32 arithmetic *)

Definition float32 : Type := spec_float.

Module F32.
Definition prec : Z := 24.
Definition emax : Z := 128.

Definition add : float32 -> float32 -> float32 := SFadd prec emax.
Definition sub : float32 -> float32 -> float32 := SFsub prec emax.
Definition mul : float32 -> float32 -> float32 := SFmul prec emax.
Definition div : float32 -> float32 -> float32 := SFdiv prec emax.
Definition sqrt : float32 -> float32 := SFsqrt prec emax.
Definition opp : float32 -> float32 := SFopp.
Definition eqb : float32 -> float32 -> bool := SFeqb.
Definition ltb : float32 -> float32 -> bool := SFltb.
Definition leb : float32 -> float32 -> bool := SFleb.
(** [a >= b] is [b <= a], also on not-a-number. *)
Definition geb (a b : float32) : bool := SFleb b a.

(** [static_cast<float>(n)] for an integer [n]. *)
Definition of_Z (n : Z) : float32 := binary_normalize prec emax n 0 false.

(** A decimal literal [num/den] with both parts exactly representable:
    the nearest binary32 value, as the compiler computes it. *)
Definition lit (num den : Z) : float32 := div (of_Z num) (of_Z den).

(** [static_cast<int>(x)]: truncation toward zero.  Not-a-number and the
    infinities have undefined behaviour in C++; they give 0 here. *)
Definition to_int (x : float32) : Z :=
  match x with
  | S754_finite s m e =>
      cond_Zopp s (if (0 <=? e)%Z then Z.shiftl (Zpos m) e
                   else Z.shiftr (Zpos m) (- e))
  | _ => 0%Z
  end.

Definition is_finite (x : float32) : bool :=
  match x with
  | S754_zero _ | S754_finite _ _ _ => true
  | _ => false
  end.

Definition is_nan (x : float32) : bool :=
  match x with S754_nan => true | _ => false end.

Definition zero : float32 := S754_zero false.
Definition one : float32 := Eval vm_compute in of_Z 1.
Definition two : float32 := Eval vm_compute in of_Z 2.
End F32.

Declare Scope f32_scope.
Delimit Scope f32_scope with f32.
Infix "+" := F32.add : f32_scope.
Infix "-" := F32.sub : f32_scope.
Infix "*" := F32.mul : f32_scope.
Infix "/" := F32.div : f32_scope.
Notation "- x" := (F32.opp x) : f32_scope.
Infix "==" := F32.eqb (at level 70, no associativity) : f32_scope.
Infix "<?" := F32.ltb : f32_scope.
Infix "<=?" := F32.leb : f32_scope.
Infix ">=?" := F32.geb (at level 70, no associativity) : f32_scope.

(** ** The part of GLM the program uses *)

Module glm.
Record vec3 : Type := mk_vec3 { x : float32; y : float32; z : float32 }.
Record vec4 : Type :=
  mk_vec4 { r4 : float32; g4 : float32; b4 : float32; a4 : float32 }.

(** The colour accessors of a [vec3] alias its coordinates. *)
Definition r : vec3 -> float32 := x.
Definition g : vec3 -> float32 := y.
Definition b : vec3 -> float32 := z.

Definition add (u v : vec3) : vec3 :=
  mk_vec3 (x u + x v)%f32 (y u + y v)%f32 (z u + z v)%f32.
Definition sub (u v : vec3) : vec3 :=
  mk_vec3 (x u - x v)%f32 (y u - y v)%f32 (z u - z v)%f32.
(** [v * s] for a scalar [s]. *)
Definition scale (v : vec3) (s : float32) : vec3 :=
  mk_vec3 (x v * s)%f32 (y v * s)%f32 (z v * s)%f32.
(** [operator==]: component-wise, so a not-a-number differs from itself. *)
Definition eqb (u v : vec3) : bool :=
  (x u == x v)%f32 && (y u == y v)%f32 && (z u == z v)%f32.

Definition dot (u v : vec3) : float32 :=
  ((x u * x v + y u * y v) + z u * z v)%f32.
Definition length (v : vec3) : float32 := F32.sqrt (dot v v).
(** [glm::distance(p0, p1)] is [length(p1 - p0)]. *)
Definition distance (p0 p1 : vec3) : float32 := length (sub p1 p0).
End glm.

(** ** Particles *)

Record Particle : Type := mkParticle {
  position : glm.vec3;
  color : glm.vec3;
  shape : Z;
  lifespan : float32;
  velocity : glm.vec3;
  acceleration : glm.vec3
}.

(** [Particle::operator==]: position and colour only. *)
Definition Particle_eqb (p other : Particle) : bool :=
  glm.eqb (position p) (position other) && glm.eqb (color p) (color other).

(** ** Globals *)

(** What the program writes on [std::cout]. *)
Inductive ConsoleLine : Type :=
| LineGoodbye
| LineEscGoodbye
| LineWinner (colorCode : glm.vec3).

Record World : Type := mkWorld {
  NUM_PARTICLES : Z;
  particleSizeValue : float32;
  initialCollide : float32;
  vertexData : list float32;
  backgroundColor : glm.vec4;
  winnerFound : bool;
  particles : list Particle;
  gQuit : bool;
  (* ghost state: the lines printed so far, oldest first, and the number
     of calls [handleCollision] has made to [rand()] *)
  console : list ConsoleLine;
  rand_calls : nat
}.

Definition leftWall : float32 := Eval vm_compute in (- F32.lit 27 10)%f32.
Definition rightWall : float32 := Eval vm_compute in F32.lit 27 10.
Definition topWall : float32 := Eval vm_compute in F32.of_Z 2.
Definition bottomWall : float32 := Eval vm_compute in (- F32.of_Z 2)%f32.

Definition gScreenWidth : Z := 800.
Definition gScreenHeight : Z := 600.

(** [RAND_MAX] of the C library the program is built against (glibc). *)
Definition RAND_MAX : Z := 2147483647.

Definition with_particles (l : list Particle) (w : World) : World :=
  mkWorld (NUM_PARTICLES w) (particleSizeValue w) (initialCollide w)
    (vertexData w) (backgroundColor w) (winnerFound w) l (gQuit w)
    (console w) (rand_calls w).

Definition with_vertexData (v : list float32) (w : World) : World :=
  mkWorld (NUM_PARTICLES w) (particleSizeValue w) (initialCollide w)
    v (backgroundColor w) (winnerFound w) (particles w) (gQuit w)
    (console w) (rand_calls w).

Definition with_particleSizeValue (s : float32) (w : World) : World :=
  mkWorld (NUM_PARTICLES w) s (initialCollide w)
    (vertexData w) (backgroundColor w) (winnerFound w) (particles w) (gQuit w)
    (console w) (rand_calls w).

Definition with_initialCollide (s : float32) (w : World) : World :=
  mkWorld (NUM_PARTICLES w) (particleSizeValue w) s
    (vertexData w) (backgroundColor w) (winnerFound w) (particles w) (gQuit w)
    (console w) (rand_calls w).

Definition with_backgroundColor (c : glm.vec4) (w : World) : World :=
  mkWorld (NUM_PARTICLES w) (particleSizeValue w) (initialCollide w)
    (vertexData w) c (winnerFound w) (particles w) (gQuit w)
    (console w) (rand_calls w).

Definition with_winnerFound (f : bool) (w : World) : World :=
  mkWorld (NUM_PARTICLES w) (particleSizeValue w) (initialCollide w)
    (vertexData w) (backgroundColor w) f (particles w) (gQuit w)
    (console w) (rand_calls w).

Definition with_NUM_PARTICLES (n : Z) (w : World) : World :=
  mkWorld n (particleSizeValue w) (initialCollide w)
    (vertexData w) (backgroundColor w) (winnerFound w) (particles w) (gQuit w)
    (console w) (rand_calls w).

Definition with_gQuit (q : bool) (w : World) : World :=
  mkWorld (NUM_PARTICLES w) (particleSizeValue w) (initialCollide w)
    (vertexData w) (backgroundColor w) (winnerFound w) (particles w) q
    (console w) (rand_calls w).

Definition print (l : ConsoleLine) (w : World) : World :=
  mkWorld (NUM_PARTICLES w) (particleSizeValue w) (initialCollide w)
    (vertexData w) (backgroundColor w) (winnerFound w) (particles w) (gQuit w)
    (console w ++ [l]) (rand_calls w).

Definition tick_rand (w : World) : World :=
  mkWorld (NUM_PARTICLES w) (particleSizeValue w) (initialCollide w)
    (vertexData w) (backgroundColor w) (winnerFound w) (particles w) (gQuit w)
    (console w) (S (rand_calls w)).

(** ** Collision detection and elimination *)

Definition checkCollision (w : World) (p1 p2 : Particle) : bool :=
  let distance := glm.distance (position p1) (position p2) in
  let sumRadii := (particleSizeValue w / initialCollide w)%f32 in
  (distance <? sumRadii)%f32.

(** [std::find] returns the first element that compares equal to [ptr];
    [erase] deletes the element at that index. *)
Definition removeParticle (ptr : Particle) (w : World) : World :=
  match list_find (fun q => Particle_eqb q ptr = true) (particles w) with
  | Some (indexToRemove, _) =>
      with_particles (delete indexToRemove (particles w)) w
  | None => w
  end.

(** [rand_result] is what [rand()] returns after the reseeding. *)
Definition randomNumber (rand_result : Z) : float32 :=
  (F32.of_Z rand_result / F32.of_Z RAND_MAX)%f32.

Definition handleCollision
    (rand_result : Z) (p1 p2 : Particle) (w : World) : World :=
  let w := tick_rand w in
  if (randomNumber rand_result == F32.zero)%f32
  then removeParticle p2 w
  else removeParticle p1 w.

Definition winCheck (w : World) : World :=
  if decide (length (particles w) = 1) then
    match last (particles w) with
    | Some back =>
        let color := color back in
        let w := if negb (winnerFound w)
                 then print (LineWinner color) w else w in
        let w := with_backgroundColor
                   (glm.mk_vec4 (glm.r color) (glm.g color) (glm.b color)
                      F32.one) w in
        with_winnerFound true w
    | None => w
    end
  else w.

(** ** The frame update *)

(** The inner loop [for (j = ...; j < particles.size(); ++j)] of the
    collision pass, entered at [j].  The vector shrinks while the loop
    runs, and both bounds and both elements are read again at every
    iteration.  [fuel] bounds the number of iterations; [draws k] is the
    result of the [k]-th call of [rand()]. *)
Fixpoint collide_inner
    (fuel : nat) (draws : nat -> Z) (i j : nat) (w : World) : World :=
  match fuel with
  | 0 => w
  | S fuel =>
      if decide (j < length (particles w)) then
        match particles w !! i, particles w !! j with
        | Some pi, Some pj =>
            let w := if checkCollision w pi pj
                     then handleCollision (draws (rand_calls w)) pi pj w
                     else w in
            collide_inner fuel draws i (S j) w
        | _, _ => w
        end
      else w
  end.

(** The outer loop [for (i = ...; i < particles.size(); i++)]. *)
Fixpoint collide_outer
    (fuel : nat) (draws : nat -> Z) (i : nat) (w : World) : World :=
  match fuel with
  | 0 => w
  | S fuel =>
      if decide (i < length (particles w)) then
        let w := collide_inner (length (particles w)) draws i (S i) w in
        collide_outer fuel draws (S i) w
      else w
  end.

Definition collisions (draws : nat -> Z) (w : World) : World :=
  collide_outer (length (particles w)) draws 0 w.

(** The two wall checks at the head of the movement loop's body: the
    velocity they leave in [p.velocity]. *)
Definition bounce (p : Particle) : glm.vec3 :=
  let pos := position p in
  let vel := velocity p in
  let vel :=
    if (glm.x pos <=? leftWall)%f32 || (glm.x pos >=? rightWall)%f32
    then glm.mk_vec3 (- glm.x vel)%f32 (glm.y vel) (glm.z vel) else vel in
  if (glm.y pos <=? bottomWall)%f32 || (glm.y pos >=? topWall)%f32
  then glm.mk_vec3 (glm.x vel) (- glm.y vel)%f32 (glm.z vel) else vel.

(** The body of the movement loop, on one particle. *)
Definition move (deltaTime : float32) (p : Particle) : Particle :=
  let vel := bounce p in
  let vel :=
    glm.add vel (glm.scale (acceleration p) (deltaTime * F32.two)%f32) in
  let pos := glm.add (position p) (glm.scale vel deltaTime) in
  mkParticle pos (color p) (shape p) (lifespan p) vel (acceleration p).

Definition movement (deltaTime : float32) (w : World) : World :=
  foldl (fun w i =>
           match particles w !! i with
           | Some p => with_particles (<[i := move deltaTime p]> (particles w)) w
           | None => w
           end)
    w (seq 0 (length (particles w))).

(** The six stores of one iteration of the vertex loop. *)
Definition store_vertex (i : nat) (p : Particle) (v : list float32)
  : list float32 :=
  let index := 6 * i in
  let v := <[index := glm.x (position p)]> v in
  let v := <[index + 1 := glm.y (position p)]> v in
  let v := <[index + 2 := glm.z (position p)]> v in
  let v := <[index + 3 := glm.r (color p)]> v in
  let v := <[index + 4 := glm.g (color p)]> v in
  <[index + 5 := glm.b (color p)]> v.

Definition update_vertexData (w : World) : World :=
  foldl (fun w i =>
           match particles w !! i with
           | Some p => with_vertexData (store_vertex i p (vertexData w)) w
           | None => w
           end)
    w (seq 0 (length (particles w))).

(** An [int] compared with a [size_t] is converted to [size_t] first. *)
Definition size_t_of_int (n : Z) : Z := (n mod 2 ^ 64)%Z.

Definition step_0_005 : float32 := Eval vm_compute in F32.lit 5 1000.
Definition step_0_5 : float32 := Eval vm_compute in F32.lit 5 10.

Definition sudden_death_condition (w : World) : bool :=
  let size := Z.of_nat (length (particles w)) in
  (size <=? size_t_of_int (Z.quot (NUM_PARTICLES w) 10))%Z
  || (size <=? 5)%Z.

Definition sudden_death (w : World) : World :=
  if sudden_death_condition w then
    let w := with_particleSizeValue (particleSizeValue w + step_0_005)%f32 w in
    with_initialCollide (initialCollide w + step_0_005)%f32 w
  else w.

(** [glBufferData] then uploads all of [vertexData], [vertexData.size()]
    floats, and leaves the globals alone. *)
Definition updateParticles
    (deltaTime : float32) (draws : nat -> Z) (w : World) : World :=
  sudden_death (update_vertexData (movement deltaTime (collisions draws w))).

(** ** Input, the main loop and initialisation *)

(** The events [SDL_PollEvent] can deliver, as far as [Input] tells them
    apart. *)
Inductive Event : Type :=
| SDL_QUIT
| KeyDown_ESCAPE
| KeyDown_SPACE
| OtherEvent.

Definition Input_event (w : World) (e : Event) : World :=
  match e with
  | SDL_QUIT => with_gQuit true (print LineGoodbye w)
  | KeyDown_ESCAPE => with_gQuit true (print LineEscGoodbye w)
  | KeyDown_SPACE =>
      with_particleSizeValue (particleSizeValue w + step_0_5)%f32 w
  | OtherEvent => w
  end.

(** [Input] drains the event queue. *)
Definition Input (queue : list Event) (w : World) : World :=
  foldl Input_event w queue.

(** What one iteration of the main loop takes from outside. *)
Record FrameInput : Type := mkFrameInput {
  queue : list Event;
  deltaTime : float32;
  draws : nat -> Z
}.

(** One iteration of the loop of [MainLoop]: [Input], [updateParticles],
    the two drawing calls (which read the globals only), [winCheck]. *)
Definition frame (inp : FrameInput) (w : World) : World :=
  winCheck (updateParticles (deltaTime inp) (draws inp) (Input (queue inp) w)).

(** [MainLoop] over the frames in [inps]; it leaves the loop when [gQuit]
    is set. *)
Fixpoint MainLoop (inps : list FrameInput) (w : World) : World :=
  match inps with
  | [] => w
  | inp :: inps => if gQuit w then w else MainLoop inps (frame inp w)
  end.

(** The random numbers one iteration of the spawning loop draws:
    six from [dis(gen)], two from [rand()]. *)
Record SpawnDraws : Type := mkSpawnDraws {
  dis_x : float32;
  dis_y : float32;
  dis_r : float32;
  dis_g : float32;
  dis_b : float32;
  dis_shape : float32;
  rand_vx : Z;
  rand_vy : Z
}.

Definition spawn_acceleration : glm.vec3 :=
  Eval vm_compute in glm.mk_vec3 F32.zero (- F32.lit 5 100)%f32 F32.zero.

Definition spawn_position (d : SpawnDraws) : glm.vec3 :=
  let width := F32.of_Z gScreenWidth in
  let height := F32.of_Z gScreenHeight in
  glm.mk_vec3
    (dis_x d * width / width * F32.two - F32.one)%f32
    (dis_y d * height / height * F32.two - F32.one)%f32
    F32.zero.

Definition spawn_particle (d : SpawnDraws) : Particle :=
  let hundred := F32.of_Z 100 in
  mkParticle
    (spawn_position d)
    (glm.mk_vec3 (dis_r d) (dis_g d) (dis_b d))
    (F32.to_int (dis_shape d * F32.of_Z 3)%f32)
    F32.one
    (glm.mk_vec3 (F32.of_Z (Z.rem (rand_vx d) 200 - 100) / hundred)%f32
                 (F32.of_Z (Z.rem (rand_vy d) 200 - 100) / hundred)%f32
                 F32.zero)
    spawn_acceleration.

(** One iteration of the spawning loop of [VertexSpecification]. *)
Definition spawn_one (d : SpawnDraws) (w : World) : World :=
  let p := spawn_particle d in
  let w := with_particles (particles w ++ [p]) w in
  with_vertexData
    (vertexData w ++
       [glm.x (position p); glm.y (position p); glm.z (position p);
        glm.r (color p); glm.g (color p); glm.b (color p)]) w.

Definition VertexSpecification (spawn : nat -> SpawnDraws) (w : World)
  : World :=
  foldl (fun w i => spawn_one (spawn i) w) w
    (seq 0 (Z.to_nat (NUM_PARTICLES w))).

(** The globals as their initialisers leave them. *)
Definition globals : World :=
  mkWorld 100
    (F32.of_Z 10) (F32.of_Z 100)
    []
    (glm.mk_vec4 F32.zero F32.zero F32.zero F32.one)
    false
    []
    false
    [] 0.

(** [main]: the optional argument overrides [NUM_PARTICLES]. *)
Definition main (arg : option Z) (spawn : nat -> SpawnDraws)
    (inps : list FrameInput) : World :=
  let w := match arg with
           | Some n => with_NUM_PARTICLES n globals
           | None => globals
           end in
  MainLoop inps (VertexSpecification spawn w).

(** The worlds the main loop can be in at the start of an iteration. *)
Inductive reachable : World -> Prop :=
| reachable_start arg spawn :
    (* [std::stoi] returns an [int] *)
    (forall n, arg = Some n -> (- 2 ^ 31 <= n < 2 ^ 31)%Z) ->
    reachable (main arg spawn [])
| reachable_frame inp w :
    reachable w -> gQuit w = false -> reachable (frame inp w).

(** * Properties *)

(** ** What each function leaves alone *)

(** The globals the collision pass and the movement loop never write. *)
Definition scalars (w : World) :=
  (NUM_PARTICLES w, particleSizeValue w, initialCollide w, vertexData w,
   backgroundColor w, winnerFound w, gQuit w, console w).

Lemma removeParticle_scalars ptr w :
  scalars (removeParticle ptr w) = scalars w.
Proof.
  unfold removeParticle.
  destruct (list_find _ _) as [[i q]|]; reflexivity.
Qed.

Lemma removeParticle_rand_calls ptr w :
  rand_calls (removeParticle ptr w) = rand_calls w.
Proof.
  unfold removeParticle.
  destruct (list_find _ _) as [[i q]|]; reflexivity.
Qed.

Lemma removeParticle_sublist ptr w :
  particles (removeParticle ptr w) `sublist_of` particles w.
Proof.
  unfold removeParticle.
  destruct (list_find _ _) as [[i q]|]; simpl; [apply sublist_delete|done].
Qed.

Lemma handleCollision_scalars rnd p1 p2 w :
  scalars (handleCollision rnd p1 p2 w) = scalars w.
Proof.
  unfold handleCollision.
  destruct (F32.eqb _ _); rewrite removeParticle_scalars; reflexivity.
Qed.

Lemma handleCollision_sublist rnd p1 p2 w :
  particles (handleCollision rnd p1 p2 w) `sublist_of` particles w.
Proof.
  unfold handleCollision.
  destruct (F32.eqb _ _);
    apply (removeParticle_sublist _ (tick_rand w)).
Qed.

Lemma collide_inner_scalars fuel draws i j w :
  scalars (collide_inner fuel draws i j w) = scalars w.
Proof.
  revert j w. induction fuel as [|fuel IH]; intros j w; simpl; [done|].
  case_decide; [|done].
  destruct (particles w !! i) as [pi|]; [|done].
  destruct (particles w !! j) as [pj|]; [|done].
  rewrite IH. destruct (checkCollision w pi pj); [|done].
  apply handleCollision_scalars.
Qed.

Lemma collide_inner_sublist fuel draws i j w :
  particles (collide_inner fuel draws i j w) `sublist_of` particles w.
Proof.
  revert j w. induction fuel as [|fuel IH]; intros j w; simpl; [done|].
  case_decide; [|done].
  destruct (particles w !! i) as [pi|]; [|done].
  destruct (particles w !! j) as [pj|]; [|done].
  etrans; [apply IH|].
  destruct (checkCollision w pi pj); [|done].
  apply handleCollision_sublist.
Qed.

Lemma collide_outer_scalars fuel draws i w :
  scalars (collide_outer fuel draws i w) = scalars w.
Proof.
  revert i w. induction fuel as [|fuel IH]; intros i w; simpl; [done|].
  case_decide; [|done].
  rewrite IH. apply collide_inner_scalars.
Qed.

Lemma collide_outer_sublist fuel draws i w :
  particles (collide_outer fuel draws i w) `sublist_of` particles w.
Proof.
  revert i w. induction fuel as [|fuel IH]; intros i w; simpl; [done|].
  case_decide; [|done].
  etrans; [apply IH|]. apply collide_inner_sublist.
Qed.

Lemma collisions_scalars draws w : scalars (collisions draws w) = scalars w.
Proof. apply collide_outer_scalars. Qed.

Lemma collisions_sublist draws w :
  particles (collisions draws w) `sublist_of` particles w.
Proof. apply collide_outer_sublist. Qed.

(** The movement loop is a map over the store. *)
Lemma movement_loop dt (done todo : list Particle) w :
  particles w = done ++ todo ->
  let w' := foldl (fun w i =>
                     match particles w !! i with
                     | Some p =>
                         with_particles (<[i := move dt p]> (particles w)) w
                     | None => w
                     end) w (seq (length done) (length todo)) in
  particles w' = done ++ (move dt <$> todo) ∧ scalars w' = scalars w
  ∧ rand_calls w' = rand_calls w.
Proof.
  revert done w. induction todo as [|p todo IH]; intros done w Hw; simpl.
  - by rewrite Hw.
  - rewrite Hw. rewrite lookup_app_r, Nat.sub_diag by done. simpl.
    specialize (IH (done ++ [move dt p])
                  (with_particles (<[length done := move dt p]> (done ++ p :: todo)) w)).
    rewrite length_app in IH. simpl in IH.
    rewrite Nat.add_1_r in IH.
    destruct IH as (H1 & H2 & H3).
    { simpl. rewrite insert_app_r_alt, Nat.sub_diag by done.
      simpl. by rewrite <- app_assoc. }
    rewrite H1, H2, H3. by rewrite <- app_assoc.
Qed.

Lemma movement_particles dt w :
  particles (movement dt w) = move dt <$> particles w.
Proof. apply (movement_loop dt [] (particles w) w). done. Qed.

Lemma movement_scalars dt w : scalars (movement dt w) = scalars w.
Proof. apply (movement_loop dt [] (particles w) w). done. Qed.

(** ** The vertex loop *)

(** The six floats of one particle, in buffer order. *)
Definition vertex_of (p : Particle) : list float32 :=
  [glm.x (position p); glm.y (position p); glm.z (position p);
   glm.r (color p); glm.g (color p); glm.b (color p)].

(** The interleaved layout of a store. *)
Definition flatten (l : list Particle) : list float32 :=
  l ≫= vertex_of.

Lemma flatten_cons p l : flatten (p :: l) = vertex_of p ++ flatten l.
Proof. reflexivity. Qed.

Lemma flatten_app l k : flatten (l ++ k) = flatten l ++ flatten k.
Proof. apply bind_app. Qed.

Lemma length_flatten l : length (flatten l) = 6 * length l.
Proof.
  induction l as [|p l IH]; [done|].
  rewrite flatten_cons, length_app, IH. simpl. lia.
Qed.

Lemma length_store_vertex i p v : length (store_vertex i p v) = length v.
Proof. unfold store_vertex. by rewrite !length_insert. Qed.

Lemma store_vertex_far i p v k :
  6 * i + 6 ≤ k -> store_vertex i p v !! k = v !! k.
Proof.
  intros Hk. unfold store_vertex.
  rewrite !list_lookup_insert_ne by lia. done.
Qed.

Lemma store_vertex_slot i p (pre rest : list float32) a0 a1 a2 a3 a4 a5 :
  length pre = 6 * i ->
  store_vertex i p (pre ++ a0 :: a1 :: a2 :: a3 :: a4 :: a5 :: rest)
  = pre ++ vertex_of p ++ rest.
Proof.
  intros Hpre. unfold store_vertex.
  rewrite !insert_app_r_alt by lia.
  replace (6 * i - length pre) with 0 by lia.
  replace (6 * i + 1 - length pre) with 1 by lia.
  replace (6 * i + 2 - length pre) with 2 by lia.
  replace (6 * i + 3 - length pre) with 3 by lia.
  replace (6 * i + 4 - length pre) with 4 by lia.
  replace (6 * i + 5 - length pre) with 5 by lia.
  reflexivity.
Qed.

Definition but_vertexData (w : World) :=
  (NUM_PARTICLES w, particleSizeValue w, initialCollide w, particles w,
   backgroundColor w, winnerFound w, gQuit w, console w, rand_calls w).

Lemma vertex_loop_frame idx w :
  let w' := foldl (fun w i =>
                     match particles w !! i with
                     | Some p =>
                         with_vertexData (store_vertex i p (vertexData w)) w
                     | None => w
                     end) w idx in
  but_vertexData w' = but_vertexData w
  ∧ length (vertexData w') = length (vertexData w).
Proof.
  revert w. induction idx as [|i idx IH]; intros w; simpl; [done|].
  destruct (particles w !! i) as [p|]; [|apply IH].
  destruct (IH (with_vertexData (store_vertex i p (vertexData w)) w))
    as [H1 H2].
  rewrite H1, H2. simpl. by rewrite length_store_vertex.
Qed.

Lemma update_vertexData_rest w :
  but_vertexData (update_vertexData w) = but_vertexData w.
Proof. apply vertex_loop_frame. Qed.

Lemma update_vertexData_particles w :
  particles (update_vertexData w) = particles w.
Proof. by injection (update_vertexData_rest w). Qed.

Lemma length_update_vertexData w :
  length (vertexData (update_vertexData w)) = length (vertexData w).
Proof. apply vertex_loop_frame. Qed.

(** With room for every particle, the loop rewrites the first
    [6 * particles.size()] floats and keeps the others. *)
Lemma vertex_loop_layout (done todo : list Particle) (tail : list float32) w :
  particles w = done ++ todo ->
  vertexData w = flatten done ++ tail ->
  6 * length todo ≤ length tail ->
  vertexData
    (foldl (fun w i =>
              match particles w !! i with
              | Some p => with_vertexData (store_vertex i p (vertexData w)) w
              | None => w
              end) w (seq (length done) (length todo)))
  = flatten (done ++ todo) ++ drop (6 * length todo) tail.
Proof.
  revert done tail w. induction todo as [|p todo IH];
    intros done tail w Hp Hv Hlen; simpl.
  - by rewrite app_nil_r.
  - rewrite Hp, lookup_app_r, Nat.sub_diag by done. simpl.
    simpl in Hlen.
    destruct tail as [|a0 [|a1 [|a2 [|a3 [|a4 [|a5 tail]]]]]];
      simpl in Hlen; try lia.
    specialize (IH (done ++ [p]) tail
      (with_vertexData (store_vertex (length done) p (vertexData w)) w)).
    rewrite length_app in IH. simpl in IH. rewrite Nat.add_1_r in IH.
    rewrite IH.
    + rewrite <- app_assoc. simpl.
      replace (length todo + S (length todo + S (length todo + S
                 (length todo + S (length todo + S (length todo + 0))))))
        with (5 + 6 * length todo) by lia.
      reflexivity.
    + simpl. by rewrite Hp, <- app_assoc.
    + simpl. rewrite Hv.
      rewrite store_vertex_slot by apply length_flatten.
      rewrite flatten_app, <- app_assoc. reflexivity.
    + lia.
Qed.

Lemma update_vertexData_layout w :
  6 * length (particles w) ≤ length (vertexData w) ->
  vertexData (update_vertexData w)
  = flatten (particles w) ++ drop (6 * length (particles w)) (vertexData w).
Proof.
  intros H. apply (vertex_loop_layout [] (particles w) (vertexData w) w);
    done.
Qed.

Lemma sudden_death_particles w : particles (sudden_death w) = particles w.
Proof. unfold sudden_death. by destruct (sudden_death_condition w). Qed.

Lemma sudden_death_vertexData w :
  vertexData (sudden_death w) = vertexData w.
Proof. unfold sudden_death. by destruct (sudden_death_condition w). Qed.

Lemma sudden_death_rest w :
  (NUM_PARTICLES (sudden_death w), backgroundColor (sudden_death w),
   winnerFound (sudden_death w), gQuit (sudden_death w),
   console (sudden_death w), rand_calls (sudden_death w))
  = (NUM_PARTICLES w, backgroundColor w,
     winnerFound w, gQuit w, console w, rand_calls w).
Proof. unfold sudden_death. by destruct (sudden_death_condition w). Qed.

Lemma scalars_vertexData w w' :
  scalars w = scalars w' -> vertexData w = vertexData w'.
Proof. by intros [=]. Qed.

Lemma scalars_NUM_PARTICLES w w' :
  scalars w = scalars w' -> NUM_PARTICLES w = NUM_PARTICLES w'.
Proof. by intros [=]. Qed.

Lemma scalars_sizes w w' :
  scalars w = scalars w' ->
  particleSizeValue w = particleSizeValue w'
  ∧ initialCollide w = initialCollide w'.
Proof. by intros [=]. Qed.

Lemma scalars_win w w' :
  scalars w = scalars w' ->
  backgroundColor w = backgroundColor w' ∧ winnerFound w = winnerFound w'
  ∧ console w = console w' ∧ gQuit w = gQuit w'.
Proof. by intros [=]. Qed.

Lemma updateParticles_particles dt draws w :
  particles (updateParticles dt draws w)
  = move dt <$> particles (collisions draws w).
Proof.
  unfold updateParticles.
  by rewrite sudden_death_particles, update_vertexData_particles,
    movement_particles.
Qed.

Lemma updateParticles_vertexData_length dt draws w :
  length (vertexData (updateParticles dt draws w)) = length (vertexData w).
Proof.
  unfold updateParticles.
  rewrite sudden_death_vertexData, length_update_vertexData.
  rewrite (scalars_vertexData _ _ (movement_scalars dt _)).
  by rewrite (scalars_vertexData _ _ (collisions_scalars draws w)).
Qed.

(** ** [Input] and [winCheck] *)

Definition untouched_by_Input (w : World) :=
  (NUM_PARTICLES w, initialCollide w, vertexData w, backgroundColor w,
   winnerFound w, particles w, rand_calls w).

Lemma Input_rest queue w :
  untouched_by_Input (Input queue w) = untouched_by_Input w.
Proof.
  unfold Input. revert w.
  induction queue as [|e queue IH]; intros w; simpl; [done|].
  rewrite IH. by destruct e.
Qed.

Lemma Input_particles queue w : particles (Input queue w) = particles w.
Proof. by injection (Input_rest queue w). Qed.

Lemma Input_vertexData queue w : vertexData (Input queue w) = vertexData w.
Proof. by injection (Input_rest queue w). Qed.

Lemma Input_NUM_PARTICLES queue w :
  NUM_PARTICLES (Input queue w) = NUM_PARTICLES w.
Proof. by injection (Input_rest queue w). Qed.

Definition untouched_by_winCheck (w : World) :=
  (NUM_PARTICLES w, particleSizeValue w, initialCollide w, vertexData w,
   particles w, gQuit w, rand_calls w).

Lemma winCheck_rest w :
  untouched_by_winCheck (winCheck w) = untouched_by_winCheck w.
Proof.
  unfold winCheck. case_decide; [|done].
  destruct (last (particles w)); [|done].
  by destruct (winnerFound w).
Qed.

Lemma winCheck_particles w : particles (winCheck w) = particles w.
Proof. by injection (winCheck_rest w). Qed.

Lemma winCheck_vertexData w : vertexData (winCheck w) = vertexData w.
Proof. by injection (winCheck_rest w). Qed.

Lemma winCheck_NUM_PARTICLES w : NUM_PARTICLES (winCheck w) = NUM_PARTICLES w.
Proof. by injection (winCheck_rest w). Qed.

(** ** One frame *)

Lemma frame_particles inp w :
  particles (frame inp w)
  = move (deltaTime inp) <$> particles (collisions (draws inp) (Input (queue inp) w)).
Proof.
  unfold frame. by rewrite winCheck_particles, updateParticles_particles.
Qed.

Lemma updateParticles_NUM_PARTICLES dt draws w :
  NUM_PARTICLES (updateParticles dt draws w) = NUM_PARTICLES w.
Proof.
  unfold updateParticles.
  injection (sudden_death_rest
               (update_vertexData (movement dt (collisions draws w))))
    as -> _ _ _ _ _.
  injection (update_vertexData_rest (movement dt (collisions draws w)))
    as -> _ _ _ _ _ _ _ _.
  rewrite (scalars_NUM_PARTICLES _ _ (movement_scalars dt _)).
  by rewrite (scalars_NUM_PARTICLES _ _ (collisions_scalars draws w)).
Qed.

Lemma frame_NUM_PARTICLES inp w :
  NUM_PARTICLES (frame inp w) = NUM_PARTICLES w.
Proof.
  unfold frame.
  by rewrite winCheck_NUM_PARTICLES, updateParticles_NUM_PARTICLES,
    Input_NUM_PARTICLES.
Qed.

Lemma length_frame_vertexData inp w :
  length (vertexData (frame inp w)) = length (vertexData w).
Proof.
  unfold frame.
  by rewrite winCheck_vertexData, updateParticles_vertexData_length,
    Input_vertexData.
Qed.

Lemma updateParticles_shrinks dt draws w :
  length (particles (updateParticles dt draws w)) ≤ length (particles w).
Proof.
  rewrite updateParticles_particles, length_fmap.
  apply sublist_length, collisions_sublist.
Qed.

Lemma frame_shrinks inp w :
  length (particles (frame inp w)) ≤ length (particles w).
Proof.
  unfold frame. rewrite winCheck_particles.
  etrans; [apply updateParticles_shrinks|].
  by rewrite Input_particles.
Qed.

(** ** Initialisation *)

Lemma spawn_loop (spawn : nat -> SpawnDraws) (idx : list nat) w :
  let w' := foldl (fun w i => spawn_one (spawn i) w) w idx in
  particles w' = particles w ++ ((fun i => spawn_particle (spawn i)) <$> idx)
  ∧ vertexData w'
    = vertexData w ++ flatten ((fun i => spawn_particle (spawn i)) <$> idx)
  ∧ (NUM_PARTICLES w', particleSizeValue w', initialCollide w',
     backgroundColor w', winnerFound w', gQuit w', console w', rand_calls w')
    = (NUM_PARTICLES w, particleSizeValue w, initialCollide w,
       backgroundColor w, winnerFound w, gQuit w, console w, rand_calls w).
Proof.
  revert w. induction idx as [|i idx IH]; intros w.
  - simpl. by rewrite !app_nil_r.
  - cbn [foldl]. rewrite fmap_cons, flatten_cons.
    destruct (IH (spawn_one (spawn i) w)) as (H1 & H2 & H3).
    cbv zeta. rewrite H1, H2, H3. unfold spawn_one. simpl.
    by rewrite <- !app_assoc.
Qed.

Definition start (arg : option Z) (spawn : nat -> SpawnDraws) : World :=
  main arg spawn [].

Lemma start_spec arg spawn :
  let n := Z.to_nat (default 100%Z arg) in
  let l := (fun i => spawn_particle (spawn i)) <$> seq 0 n in
  start arg spawn
  = mkWorld (default 100%Z arg) (F32.of_Z 10) (F32.of_Z 100) (flatten l)
      (glm.mk_vec4 F32.zero F32.zero F32.zero F32.one) false l false [] 0.
Proof.
  unfold start, main, MainLoop, VertexSpecification.
  set (w := match arg with Some n => _ | None => _ end).
  destruct (spawn_loop spawn (seq 0 (Z.to_nat (NUM_PARTICLES w))) w)
    as (H1 & H2 & H3).
  set (w' := foldl _ _ _) in *.
  assert (Hw : (NUM_PARTICLES w, particleSizeValue w, initialCollide w,
                backgroundColor w, winnerFound w, gQuit w, console w,
                rand_calls w, particles w, vertexData w)
               = (default 100%Z arg, F32.of_Z 10, F32.of_Z 100,
                  glm.mk_vec4 F32.zero F32.zero F32.zero F32.one, false,
                  false, [], 0, [], [])) by (subst w; by destruct arg).
  injection Hw as Hw0 Hw1 Hw2 Hw3 Hw4 Hw5 Hw6 Hw7 Hw8 Hw9.
  destruct w' as [a0 a1 a2 a3 a4 a5 a6 a7 a8 a9]. simpl in *.
  injection H3 as -> -> -> -> -> -> -> ->.
  rewrite H1, H2, Hw8, Hw9, Hw0. simpl.
  congruence.
Qed.

(** ** Invariants of the reachable worlds *)

(** The buffer keeps the size the spawning loop gave it, and the store
    never outgrows it. *)
Definition sizes_ok (w : World) : Prop :=
  length (vertexData w) = 6 * Z.to_nat (NUM_PARTICLES w)
  ∧ length (particles w) ≤ Z.to_nat (NUM_PARTICLES w).

Lemma sizes_ok_start arg spawn : sizes_ok (start arg spawn).
Proof.
  rewrite start_spec. unfold sizes_ok. simpl.
  by rewrite length_flatten, length_fmap, length_seq.
Qed.

Lemma sizes_ok_frame inp w : sizes_ok w -> sizes_ok (frame inp w).
Proof.
  intros [H1 H2]. unfold sizes_ok.
  rewrite length_frame_vertexData, frame_NUM_PARTICLES.
  split; [done|]. etrans; [apply frame_shrinks|done].
Qed.

Lemma reachable_sizes_ok w : reachable w -> sizes_ok w.
Proof.
  induction 1 as [arg spawn _|inp w _ IH _].
  - apply sizes_ok_start.
  - by apply sizes_ok_frame.
Qed.

(** Every store of the vertex loop of a frame hits an existing slot. *)
Lemma vertexData_writes_in_range inp w i :
  reachable w ->
  i < length (particles (frame inp w)) ->
  6 * i + 5 < length (vertexData w).
Proof.
  intros [Hlen Hroom]%reachable_sizes_ok Hi.
  pose proof (frame_shrinks inp w). lia.
Qed.

(** ** The buffer after a frame *)

Lemma updateParticles_vertexData dt draws w :
  6 * length (particles w) ≤ length (vertexData w) ->
  vertexData (updateParticles dt draws w)
  = flatten (particles (updateParticles dt draws w))
    ++ drop (6 * length (particles (updateParticles dt draws w)))
         (vertexData w).
Proof.
  intros Hroom.
  pose proof (updateParticles_shrinks dt draws w) as Hle.
  rewrite updateParticles_particles in *.
  unfold updateParticles. rewrite sudden_death_vertexData.
  rewrite update_vertexData_layout.
  - rewrite movement_particles.
    rewrite (scalars_vertexData _ _ (movement_scalars dt _)).
    by rewrite (scalars_vertexData _ _ (collisions_scalars draws w)).
  - rewrite movement_particles.
    rewrite (scalars_vertexData _ _ (movement_scalars dt _)).
    rewrite (scalars_vertexData _ _ (collisions_scalars draws w)). lia.
Qed.

Lemma frame_vertexData inp w :
  6 * length (particles w) ≤ length (vertexData w) ->
  vertexData (frame inp w)
  = flatten (particles (frame inp w))
    ++ drop (6 * length (particles (frame inp w))) (vertexData w).
Proof.
  intros Hroom. unfold frame.
  rewrite winCheck_vertexData, winCheck_particles.
  rewrite updateParticles_vertexData;
    rewrite ?Input_particles, ?Input_vertexData; done.
Qed.

Lemma MainLoop_invariant (P : World -> Prop) inps w :
  (forall inp w, P w -> P (frame inp w)) -> P w -> P (MainLoop inps w).
Proof.
  intros Hstep. revert w.
  induction inps as [|inp inps IH]; intros w Hw; simpl; [done|].
  destruct (gQuit w); [done|]. by apply IH, Hstep.
Qed.

(** ** Removal by value *)

Lemma removeParticle_first target w i q :
  particles w !! i = Some q ->
  Particle_eqb q target = true ->
  (forall j q', j < i -> particles w !! j = Some q' ->
                Particle_eqb q' target = false) ->
  removeParticle target w = with_particles (delete i (particles w)) w.
Proof.
  intros Hi Hq Hfirst. unfold removeParticle.
  assert (list_find (fun q => Particle_eqb q target = true) (particles w)
          = Some (i, q)) as ->; [|done].
  apply list_find_Some. split_and!; [done..|].
  intros j q' Hj Hlt. rewrite (Hfirst j q' Hlt Hj). done.
Qed.

Lemma removeParticle_absent target w :
  (forall q, q ∈ particles w -> Particle_eqb q target = false) ->
  removeParticle target w = w.
Proof.
  intros Hnone. unfold removeParticle.
  assert (list_find (fun q => Particle_eqb q target = true) (particles w)
          = None) as ->; [|done].
  apply list_find_None, Forall_forall. intros q Hq.
  rewrite (Hnone q Hq). done.
Qed.

Lemma removeParticle_present target w :
  (exists q, q ∈ particles w ∧ Particle_eqb q target = true) ->
  exists i q,
    particles w !! i = Some q ∧ Particle_eqb q target = true
    ∧ (forall j q', j < i -> particles w !! j = Some q' ->
                    Particle_eqb q' target = false)
    ∧ removeParticle target w = with_particles (delete i (particles w)) w.
Proof.
  intros (q0 & Hin & Heq).
  destruct (list_find (fun q => Particle_eqb q target = true) (particles w))
    as [[i q]|] eqn:Hfind.
  - pose proof Hfind as Hspec.
    apply list_find_Some in Hspec as (Hi & Hq & Hfirst).
    exists i, q. split_and!; [done..| |].
    + intros j q' Hlt Hj. specialize (Hfirst j q' Hj Hlt).
      by destruct (Particle_eqb q' target).
    + unfold removeParticle. by rewrite Hfind.
  - apply list_find_None in Hfind.
    rewrite Forall_forall in Hfind. by destruct (Hfind q0 Hin).
Qed.

Lemma length_delete_lookup {A} (l : list A) i x :
  l !! i = Some x -> S (length (delete i l)) = length l.
Proof.
  intros Hi. rewrite length_delete by eauto.
  apply lookup_lt_Some in Hi. lia.
Qed.


(** ** The acceleration of a particle *)

(** Every particle carries the acceleration the spawning loop gave it. *)
Definition accelerations_ok (w : World) : Prop :=
  forall p, p ∈ particles w -> acceleration p = spawn_acceleration.

Lemma accelerations_ok_start arg spawn : accelerations_ok (start arg spawn).
Proof.
  rewrite start_spec. intros p. simpl.
  rewrite list_elem_of_fmap. by intros (i & -> & _).
Qed.

Lemma accelerations_ok_frame inp w :
  accelerations_ok w -> accelerations_ok (frame inp w).
Proof.
  intros Hw p. rewrite frame_particles, list_elem_of_fmap.
  intros (q & -> & Hq). simpl. apply Hw.
  eapply elem_of_sublist; [done|].
  etrans; [apply collisions_sublist|]. by rewrite Input_particles.
Qed.

Lemma reachable_accelerations_ok w : reachable w -> accelerations_ok w.
Proof.
  induction 1 as [arg spawn _|inp w _ IH _].
  - apply accelerations_ok_start.
  - by apply accelerations_ok_frame.
Qed.

(** ** Signs of binary32 values *)

Lemma eqb_rightWall a : (a == rightWall)%f32 = true -> a = rightWall.
Proof.
  unfold F32.eqb, SFeqb, rightWall.
  destruct a as [[]|[]| |[] m e]; try discriminate.
  cbn [SFcompare]. intros H.
  destruct (Z.compare_spec e (-22)%Z) as [He| |]; try discriminate H.
  change (PosDef.Pos.compare_cont Eq m 11324621)
    with (Pos.compare m 11324621) in H.
  destruct (Pos.compare_spec m 11324621%positive) as [Hm| |];
    try discriminate H.
  by rewrite He, Hm.
Qed.

Lemma opp_positive_add_zero a t :
  (F32.zero <? a)%f32 = true ->
  F32.is_finite t = true ->
  ((- a + F32.zero * t) <? F32.zero)%f32 = true.
Proof.
  intros Ha Ht.
  destruct a as [sa|sa| |sa ma ea]; try discriminate Ha;
    destruct sa; try discriminate Ha;
    destruct t as [st|st| |st mt et]; try discriminate Ht; reflexivity.
Qed.

Lemma move_velocity_x dt p :
  glm.x (velocity (move dt p))
  = (glm.x (bounce p) + glm.x (acceleration p) * (dt * F32.two))%f32.
Proof. reflexivity. Qed.

Lemma bounce_at_right_wall p :
  (glm.x (position p) == rightWall)%f32 = true ->
  glm.x (bounce p) = (- glm.x (velocity p))%f32.
Proof.
  intros Hwall. apply eqb_rightWall in Hwall.
  unfold bounce. rewrite Hwall.
  replace (rightWall >=? rightWall)%f32 with true by reflexivity.
  rewrite orb_true_r.
  by destruct (orb _ _).
Qed.

(** ** The win latch *)

(** The colour codes of the winner reports on the console, oldest first. *)
Definition winner_reports (c : list ConsoleLine) : list glm.vec3 :=
  omap (fun l => match l with LineWinner code => Some code | _ => None end) c.

Definition opaque (c : glm.vec3) : glm.vec4 :=
  glm.mk_vec4 (glm.r c) (glm.g c) (glm.b c) F32.one.

(** Unlatched, nothing has been reported; latched, the store holds the
    survivor alone, its colour was reported once and is the background. *)
Definition latch_ok (w : World) : Prop :=
  if winnerFound w
  then exists p, particles w = [p]
                 ∧ winner_reports (console w) = [color p]
                 ∧ backgroundColor w = opaque (color p)
  else winner_reports (console w) = [].

Lemma winner_reports_app c1 c2 :
  winner_reports (c1 ++ c2) = winner_reports c1 ++ winner_reports c2.
Proof. apply omap_app. Qed.

Lemma Input_winner_reports queue w :
  winner_reports (console (Input queue w)) = winner_reports (console w).
Proof.
  unfold Input. revert w.
  induction queue as [|e queue IH]; intros w; [done|].
  cbn [foldl]. rewrite IH.
  destruct e; [| |done..]; simpl;
    by rewrite winner_reports_app, app_nil_r.
Qed.

Lemma updateParticles_win dt draws w :
  (backgroundColor (updateParticles dt draws w),
   winnerFound (updateParticles dt draws w),
   console (updateParticles dt draws w))
  = (backgroundColor w, winnerFound w, console w).
Proof.
  unfold updateParticles.
  injection (sudden_death_rest
               (update_vertexData (movement dt (collisions draws w))))
    as _ -> -> _ -> _.
  injection (update_vertexData_rest (movement dt (collisions draws w)))
    as _ _ _ _ -> -> _ -> _.
  destruct (scalars_win _ _ (movement_scalars dt (collisions draws w)))
    as (-> & -> & -> & _).
  by destruct (scalars_win _ _ (collisions_scalars draws w))
    as (-> & -> & -> & _).
Qed.

(** A lone particle has nothing to collide with. *)
Lemma collisions_lone draws w p :
  particles w = [p] -> collisions draws w = w.
Proof.
  intros Hp. unfold collisions. rewrite Hp. cbn [length collide_outer].
  rewrite Hp. cbn [length]. rewrite decide_True by lia.
  cbn [collide_inner]. rewrite Hp. cbn [length].
  by rewrite decide_False by lia.
Qed.

Lemma updateParticles_lone dt draws w p :
  particles w = [p] -> particles (updateParticles dt draws w) = [move dt p].
Proof.
  intros Hp.
  by rewrite updateParticles_particles, (collisions_lone draws w p Hp), Hp.
Qed.

Lemma latch_ok_winCheck w :
  latch_ok w -> latch_ok (winCheck w).
Proof.
  unfold latch_ok, winCheck. intros Hw.
  case_decide as Hlen; [|done].
  destruct (particles w) as [|p [|? ?]] eqn:Hp; try done.
  cbn [last]. destruct (winnerFound w); simpl.
  - destruct Hw as (p' & [= <-] & Hrep & Hbg). rewrite Hp. eauto.
  - rewrite Hp. exists p. rewrite winner_reports_app, Hw. done.
Qed.

Lemma latch_ok_frame inp w : latch_ok w -> latch_ok (frame inp w).
Proof.
  intros Hw. unfold frame. apply latch_ok_winCheck.
  unfold latch_ok in *.
  injection (updateParticles_win (deltaTime inp) (draws inp)
               (Input (queue inp) w)) as -> -> ->.
  rewrite Input_winner_reports.
  injection (Input_rest (queue inp) w) as _ _ _ Hbg Hfound Hparts _.
  rewrite Hbg, Hfound.
  destruct (winnerFound w); [|done].
  destruct Hw as (p & Hp & Hrep & Hcol).
  exists (move (deltaTime inp) p). split_and!; [|done..].
  apply updateParticles_lone. by rewrite Hparts.
Qed.

Lemma latch_ok_start arg spawn : latch_ok (start arg spawn).
Proof. by rewrite start_spec. Qed.

Lemma reachable_latch_ok w : reachable w -> latch_ok w.
Proof.
  induction 1 as [arg spawn _|inp w _ IH _].
  - apply latch_ok_start.
  - by apply latch_ok_frame.
Qed.

(** Once latched, a frame keeps the latch, the survivor's colour, the
    report and the background. *)
Definition won_by (c : glm.vec3) (w : World) : Prop :=
  winnerFound w = true
  ∧ (exists p, particles w = [p] ∧ color p = c)
  ∧ winner_reports (console w) = [c]
  ∧ backgroundColor w = opaque c.

Lemma won_by_frame c inp w : won_by c w -> won_by c (frame inp w).
Proof.
  intros (Hfound & (p & Hp & Hc) & Hrep & Hbg).
  assert (latch_ok w) as Hok.
  { unfold latch_ok. rewrite Hfound. exists p. by rewrite Hc. }
  apply (latch_ok_frame inp) in Hok.
  assert (particles (frame inp w) = [move (deltaTime inp) p]) as Hp'.
  { unfold frame. rewrite winCheck_particles.
    apply updateParticles_lone. by rewrite Input_particles. }
  assert (winnerFound (frame inp w) = true) as Hfound'.
  { unfold frame in *. rewrite winCheck_particles in Hp'.
    unfold winCheck. rewrite Hp'. cbn [length last].
    by rewrite decide_True by done. }
  unfold latch_ok in Hok. rewrite Hfound' in Hok.
  destruct Hok as (p' & Hp'' & Hrep' & Hbg').
  rewrite Hp' in Hp''. injection Hp'' as <-.
  simpl in *. rewrite Hc in *.
  split_and!; [done| |done..]. by exists (move (deltaTime inp) p).
Qed.

(** ** Rounding of binary32 sums *)

Section Digits.
Local Open Scope Z_scope.

Lemma digits2_pos_bounds m :
  2 ^ (Zpos (digits2_pos m) - 1) <= Zpos m < 2 ^ Zpos (digits2_pos m).
Proof.
  induction m as [m IH|m IH|]; cbn [digits2_pos].
  - rewrite Pos2Z.inj_succ, Pos2Z.inj_xI.
    replace (Z.succ (Zpos (digits2_pos m)) - 1)
      with (Z.succ (Zpos (digits2_pos m) - 1)) by lia.
    rewrite !Z.pow_succ_r by lia. lia.
  - rewrite Pos2Z.inj_succ, (Pos2Z.inj_xO m).
    replace (Z.succ (Zpos (digits2_pos m)) - 1)
      with (Z.succ (Zpos (digits2_pos m) - 1)) by lia.
    rewrite !Z.pow_succ_r by lia. lia.
  - done.
Qed.

Lemma digits2_pos_unique m d :
  2 ^ (d - 1) <= Zpos m < 2 ^ d -> Zpos (digits2_pos m) = d.
Proof.
  intros [Hlo Hhi]. pose proof (digits2_pos_bounds m) as [Hlo' Hhi'].
  assert (0 < d).
  { destruct (Z.lt_ge_cases 0 d) as [|Hd]; [done|].
    rewrite Z.pow_neg_r in Hlo by lia.
    assert (2 ^ d <= 2 ^ 0) by (apply Z.pow_le_mono_r; lia).
    change (2 ^ 0) with 1 in *. lia. }
  destruct (Z.lt_trichotomy (Zpos (digits2_pos m)) d) as [Hlt|[Heq|Hgt]];
    [|done|].
  - assert (2 ^ Zpos (digits2_pos m) <= 2 ^ (d - 1))
      by (apply Z.pow_le_mono_r; lia). lia.
  - assert (2 ^ d <= 2 ^ (Zpos (digits2_pos m) - 1))
      by (apply Z.pow_le_mono_r; lia). lia.
Qed.

Lemma shl_iter_xO m d : Zpos (Pos.iter xO m d) = Zpos m * 2 ^ Zpos d.
Proof.
  rewrite (Pos.iter_swap_gen _ _ Zpos xO (Z.mul 2)) by done.
  rewrite <- Z.shiftl_mul_pow2 by lia. reflexivity.
Qed.

(** [shl_align] towards a smaller exponent keeps the value. *)
Lemma shl_align_value m e e' :
  e' <= e ->
  Zpos (fst (shl_align m e e')) = Zpos m * 2 ^ (e - e')
  ∧ snd (shl_align m e e') = e'.
Proof.
  intros Hle. unfold shl_align.
  destruct (e' - e) as [|d|d] eqn:Hd; try lia.
  - assert (e = e') as -> by lia. rewrite Z.sub_diag. simpl. lia.
  - cbn [fst snd]. rewrite shl_iter_xO.
    replace (e - e') with (Zpos d) by lia. done.
Qed.

Lemma shr_1_m r : 0 <= shr_m r -> shr_m (shr_1 r) = shr_m r / 2.
Proof.
  destruct r as [m rb sb]. cbn [shr_m]. intros Hm. unfold shr_1.
  destruct m as [|[p|p|]|p]; cbn [shr_m]; try lia; try reflexivity.
  - rewrite (Pos2Z.inj_xI p). apply Z.div_unique with 1; lia.
  - rewrite (Pos2Z.inj_xO p). apply Z.div_unique with 0; lia.
Qed.

Lemma iter_shr_1_m p r :
  0 <= shr_m r ->
  shr_m (SpecFloat.iter_pos shr_1 p r) = shr_m r / 2 ^ Zpos p.
Proof.
  revert r. induction p as [p IH|p IH|]; intros r Hr;
    cbn [SpecFloat.iter_pos].
  - assert (0 <= shr_m (shr_1 r))
      by (rewrite shr_1_m by done; apply Z.div_pos; lia).
    assert (0 <= shr_m (SpecFloat.iter_pos shr_1 p (shr_1 r)))
      by (rewrite IH by done; apply Z.div_pos; lia).
    rewrite !IH, shr_1_m by done.
    rewrite !Z.div_div by lia.
    rewrite Pos2Z.inj_xI.
    replace (2 * Zpos p + 1) with (1 + Zpos p + Zpos p) by lia.
    rewrite !Z.pow_add_r by lia. change (2 ^ 1) with 2.
    f_equal. ring.
  - assert (0 <= shr_m (SpecFloat.iter_pos shr_1 p r))
      by (rewrite IH by done; apply Z.div_pos; lia).
    rewrite !IH by done.
    rewrite Z.div_div by lia.
    rewrite (Pos2Z.inj_xO p).
    replace (2 * Zpos p) with (Zpos p + Zpos p) by lia.
    rewrite Z.pow_add_r by lia. done.
  - rewrite shr_1_m by done. done.
Qed.

Lemma round_nearest_even_ge m l : m <= round_nearest_even m l.
Proof.
  unfold round_nearest_even.
  destruct l as [|[]]; try lia. destruct (Z.even m); lia.
Qed.

Lemma round_nearest_even_le m l : round_nearest_even m l <= m + 1.
Proof.
  unfold round_nearest_even.
  destruct l as [|[]]; try lia. destruct (Z.even m); lia.
Qed.

Lemma fexp32 e : fexp F32.prec F32.emax e = Z.max (e - 24) (-149).
Proof. reflexivity. Qed.

Lemma bounded32 m e :
  bounded F32.prec F32.emax m e = true
  <-> Z.max (Zpos (digits2_pos m) + e - 24) (-149) = e ∧ e <= 104.
Proof.
  unfold bounded, canonical_mantissa. rewrite fexp32.
  rewrite andb_true_iff, Z.eqb_eq, Z.leb_le.
  change (F32.emax - F32.prec) with 104. done.
Qed.

(** On canonical positive values the comparison of [SFcompare] is the
    comparison of the values. *)
Lemma leb_of_value ma ea mb eb :
  bounded F32.prec F32.emax ma ea = true ->
  Z.max (Zpos (digits2_pos mb) + eb - 24) (-149) = eb ->
  Zpos ma * 2 ^ (ea + 149) <= Zpos mb * 2 ^ (eb + 149) ->
  SFleb (S754_finite false ma ea) (S754_finite false mb eb) = true.
Proof.
  intros [Ha _]%bounded32 Hb Hle.
  pose proof (digits2_pos_bounds ma) as [Hma _].
  pose proof (digits2_pos_bounds mb) as [_ Hmb].
  unfold SFleb, SFcompare.
  destruct (Z.compare_spec ea eb) as [->|Hlt|Hgt]; [|done|].
  - change (PosDef.Pos.compare_cont Eq ma mb) with (Pos.compare ma mb).
    destruct (Pos.compare_spec ma mb) as [| |Hgt]; [done..|].
    assert (0 < 2 ^ (eb + 149)) by (apply Z.pow_pos_nonneg; lia).
    nia.
  - exfalso.
    assert (Zpos (digits2_pos ma) = 24) as Hda by lia.
    assert (Zpos (digits2_pos mb) <= 24) as Hdb by lia.
    rewrite Hda in Hma. change (2 ^ (24 - 1)) with 8388608 in Hma.
    assert (Zpos mb < 2 ^ 24)
      by (eapply Z.lt_le_trans; [done|apply Z.pow_le_mono_r; lia]).
    change (2 ^ 24) with 16777216 in *.
    replace (ea + 149) with ((ea - eb - 1) + 1 + (eb + 149)) in Hle by lia.
    rewrite !Z.pow_add_r in Hle by lia. change (2 ^ 1) with 2 in Hle.
    assert (0 < 2 ^ (eb + 149)) by (apply Z.pow_pos_nonneg; lia).
    assert (1 <= 2 ^ (ea - eb - 1))
      by (apply (Z.pow_le_mono_r 2 0); lia).
    set (P := 2 ^ (ea - eb - 1)) in *. set (Q := 2 ^ (eb + 149)) in *.
    assert (16777216 * Q <= Zpos ma * (2 * Q)) by nia.
    assert (Zpos ma * (2 * Q) <= Zpos ma * (P * 2 * Q))
      by (apply Z.mul_le_mono_nonneg_l; nia).
    assert (Zpos mb * Q < 16777216 * Q)
      by (apply Z.mul_lt_mono_pos_r; lia).
    lia.
Qed.

Lemma shr_fexp_noshift mz fe l :
  Z.max (Zpos (digits2_pos mz) + fe - 24) (-149) = fe ->
  shr_fexp F32.prec F32.emax (Zpos mz) fe l
  = (shr_record_of_loc (Zpos mz) l, fe).
Proof.
  intros Hfe. unfold shr_fexp. cbn [Zdigits2]. rewrite fexp32.
  replace (Zpos (digits2_pos mz) + fe - 24) with
    (Zpos (digits2_pos mz) + fe - 24) by done.
  rewrite Hfe, Z.sub_diag. reflexivity.
Qed.

(** A canonical mantissa goes through [binary_round_aux] unchanged. *)
Lemma binary_round_aux_canonical s mz fe :
  Z.max (Zpos (digits2_pos mz) + fe - 24) (-149) = fe ->
  binary_round_aux F32.prec F32.emax s (Zpos mz) fe loc_Exact
  = if fe <=? 104 then S754_finite s mz fe else S754_infinity s.
Proof.
  intros Hfe. unfold binary_round_aux.
  rewrite shr_fexp_noshift by done.
  cbn [shr_record_of_loc shr_m loc_of_shr_record round_nearest_even].
  rewrite shr_fexp_noshift by done. reflexivity.
Qed.

End Digits.
Section Shift.
Local Open Scope Z_scope.

(** A mantissa with [24 + p] digits is shifted right by [p] and rounded;
    the result is canonical and not below the truncated mantissa. *)
Lemma binary_round_aux_shift M e p :
  -149 <= e ->
  Zpos (digits2_pos M) = 24 + Zpos p ->
  exists m' e',
    binary_round_aux F32.prec F32.emax false (Zpos M) e loc_Exact
    = (if e' <=? 104 then S754_finite false m' e' else S754_infinity false)
    ∧ Z.max (Zpos (digits2_pos m') + e' - 24) (-149) = e'
    ∧ e + Zpos p <= e' <= e + Zpos p + 1
    ∧ 8388608 <= Zpos M / 2 ^ Zpos p
    ∧ (Zpos M / 2 ^ Zpos p) * 2 ^ (e + Zpos p + 149)
      <= Zpos m' * 2 ^ (e' + 149)
    ∧ Zpos m' * 2 ^ (e' + 149)
      <= (Zpos M / 2 ^ Zpos p + 1) * 2 ^ (e + Zpos p + 149).
Proof.
  intros He Hd.
  pose proof (digits2_pos_bounds M) as [Hlo Hhi]. rewrite Hd in Hlo, Hhi.
  replace (24 + Zpos p - 1) with (23 + Zpos p) in Hlo by lia.
  rewrite Z.pow_add_r in Hlo, Hhi by lia.
  change (2 ^ 23) with 8388608 in Hlo. change (2 ^ 24) with 16777216 in Hhi.
  assert (0 < 2 ^ Zpos p) as Hpow by (apply Z.pow_pos_nonneg; lia).
  set (m1 := Zpos M / 2 ^ Zpos p).
  assert (8388608 <= m1) as Hm1lo
    by (apply Z.div_le_lower_bound; lia).
  assert (m1 < 16777216) as Hm1hi
    by (apply Z.div_lt_upper_bound; lia).
  unfold binary_round_aux.
  assert (shr_fexp F32.prec F32.emax (Zpos M) e loc_Exact
          = (SpecFloat.iter_pos shr_1 p
               {| shr_m := Zpos M; shr_r := false; shr_s := false |},
             e + Zpos p)) as ->.
  { unfold shr_fexp. cbn [Zdigits2]. rewrite fexp32, Hd.
    replace (Z.max (24 + Zpos p + e - 24) (-149) - e) with (Zpos p) by lia.
    reflexivity. }
  set (mrs := SpecFloat.iter_pos shr_1 p _).
  assert (shr_m mrs = m1) as -> by (subst mrs; by rewrite iter_shr_1_m).
  pose proof (round_nearest_even_ge m1 (loc_of_shr_record mrs)) as Hge.
  pose proof (round_nearest_even_le m1 (loc_of_shr_record mrs)) as Hle.
  destruct (round_nearest_even m1 (loc_of_shr_record mrs))
    as [|q|q]; try lia.
  assert (0 < 2 ^ (e + Zpos p + 149)) by (apply Z.pow_pos_nonneg; lia).
  destruct (Z.eq_dec (Zpos q) 16777216) as [Hq|Hq].
  - injection Hq as ->.
    exists 8388608%positive, (e + Zpos p + 1).
    replace (e + Zpos p + 1 + 149) with (1 + (e + Zpos p + 149)) by lia.
    rewrite (Z.pow_add_r 2 1 (e + Zpos p + 149)) by lia.
    change (2 ^ 1) with 2.
    split_and!; [|cbn; lia|lia|lia|done| |].
    + unfold shr_fexp.
      replace (Zdigits2 16777216) with 25 by reflexivity.
      rewrite fexp32.
      replace (Z.max (25 + (e + Zpos p) - 24) (-149) - (e + Zpos p))
        with 1 by lia.
      reflexivity.
    + assert (m1 * 2 ^ (e + Zpos p + 149)
              <= 16777216 * 2 ^ (e + Zpos p + 149))
        by (apply Z.mul_le_mono_nonneg_r; lia).
      lia.
    + assert (16777216 * 2 ^ (e + Zpos p + 149)
              <= (m1 + 1) * 2 ^ (e + Zpos p + 149))
        by (apply Z.mul_le_mono_nonneg_r; lia).
      lia.
  - assert (Zpos (digits2_pos q) = 24) as Hdq.
    { apply digits2_pos_unique.
      change (2 ^ (24 - 1)) with 8388608. change (2 ^ 24) with 16777216.
      lia. }
    exists q, (e + Zpos p).
    split_and!; [|lia|lia|lia|done| |].
    + rewrite shr_fexp_noshift by lia. reflexivity.
    + apply Z.mul_le_mono_nonneg_r; lia.
    + apply Z.mul_le_mono_nonneg_r; lia.
Qed.

End Shift.

(** The values [particleSizeValue] and [initialCollide] take: positive,
    canonical, possibly infinite. *)
Definition good_pos (a : float32) : bool :=
  match a with
  | S754_finite false m e => bounded F32.prec F32.emax m e
  | S754_infinity false => true
  | _ => false
  end.

Section Sums.
Local Open Scope Z_scope.

(** Rounding a positive integer multiple of [2^e] gives a canonical value
    that is not below any canonical value the multiple is not below. *)
Lemma binary_round_lower M e mx ex :
  -149 <= e <= ex ->
  bounded F32.prec F32.emax mx ex = true ->
  Zpos mx * 2 ^ (ex - e) <= Zpos M ->
  good_pos (binary_round F32.prec F32.emax false M e) = true
  ∧ SFleb (S754_finite false mx ex)
      (binary_round F32.prec F32.emax false M e) = true.
Proof.
  intros He Hx Hle. unfold binary_round. rewrite fexp32.
  pose proof (digits2_pos_bounds M) as [Hlo Hhi].
  pose proof (proj1 (bounded32 mx ex) Hx) as [Hcx _].
  set (d := Zpos (digits2_pos M)) in *.
  set (fe := Z.max (d + e - 24) (-149)).
  assert (0 < 2 ^ (e + 149)) as Hpe by (apply Z.pow_pos_nonneg; lia).
  assert (Zpos mx * 2 ^ (ex + 149) <= Zpos M * 2 ^ (e + 149)) as Hval.
  { replace (ex + 149) with ((ex - e) + (e + 149)) by lia.
    rewrite Z.pow_add_r by lia. rewrite Z.mul_assoc.
    apply Z.mul_le_mono_nonneg_r; lia. }
  destruct (Z.le_gt_cases fe e) as [Hfe|Hfe].
  - destruct (shl_align_value M e fe Hfe) as [Hv Hs].
    destruct (shl_align M e fe) as [mz ez]. cbn [fst snd] in Hv, Hs.
    subst ez.
    assert (0 < 2 ^ (e - fe)) by (apply Z.pow_pos_nonneg; lia).
    assert (Zpos (digits2_pos mz) = d + (e - fe)) as Hdz.
    { apply digits2_pos_unique. rewrite Hv.
      replace (d + (e - fe) - 1) with ((d - 1) + (e - fe)) by lia.
      rewrite !Z.pow_add_r by lia. split.
      - apply Z.mul_le_mono_nonneg_r; lia.
      - apply Z.mul_lt_mono_pos_r; lia. }
    assert (Z.max (Zpos (digits2_pos mz) + fe - 24) (-149) = fe) as Hcz
      by (rewrite Hdz; subst fe; lia).
    rewrite binary_round_aux_canonical by done.
    destruct (fe <=? 104) eqn:Hemax; [|done].
    apply Z.leb_le in Hemax. split.
    + cbn [good_pos]. by apply bounded32.
    + apply leb_of_value; [done..|].
      rewrite Hv. rewrite <- Z.mul_assoc, <- Z.pow_add_r by lia.
      by replace (e - fe + (fe + 149)) with (e + 149) by lia.
  - assert (exists p, d = 24 + Zpos p) as [p Hp].
    { exists (Z.to_pos (d - 24)). rewrite Z2Pos.id; lia. }
    assert (shl_align M e fe = (M, e)) as ->.
    { unfold shl_align. destruct (fe - e) eqn:?; [done..|lia]. }
    destruct (binary_round_aux_shift M e p) as (m' & e' & -> & Hc & _ & Hm1 & Hv & _);
      [lia|done|].
    assert (Zpos mx * 2 ^ (ex + 149) <= Zpos m' * 2 ^ (e' + 149)) as Hfin.
    { etrans; [|apply Hv].
      assert (0 < 2 ^ Zpos p) by (apply Z.pow_pos_nonneg; lia).
      destruct (Z.le_gt_cases (e + Zpos p) ex) as [Hex|Hex].
      - replace (ex + 149) with ((ex - e - Zpos p) + (e + Zpos p + 149))
          by lia.
        rewrite Z.pow_add_r by lia. rewrite Z.mul_assoc.
        apply Z.mul_le_mono_nonneg_r;
          [apply Z.pow_nonneg; lia|].
        apply Z.div_le_lower_bound; [done|].
        replace (ex - e) with (Zpos p + (ex - e - Zpos p)) in Hle by lia.
        rewrite Z.pow_add_r in Hle by lia. lia.
      - pose proof (digits2_pos_bounds mx) as [_ Hmx].
        assert (Zpos mx < 16777216).
        { eapply Z.lt_le_trans; [done|].
          apply (Z.pow_le_mono_r 2 _ 24); lia. }
        assert (0 < 2 ^ (ex + 149)) by (apply Z.pow_pos_nonneg; lia).
        assert (2 * 2 ^ (ex + 149) <= 2 ^ (e + Zpos p + 149)).
        { replace (e + Zpos p + 149)
            with (1 + (e + Zpos p - ex - 1) + (ex + 149)) by lia.
          rewrite (Z.pow_add_r 2 (1 + (e + Zpos p - ex - 1)) (ex + 149)),
            (Z.pow_add_r 2 1 (e + Zpos p - ex - 1)) by lia.
          change (2 ^ 1) with 2.
          assert (1 <= 2 ^ (e + Zpos p - ex - 1))
            by (apply (Z.pow_le_mono_r 2 0); lia).
          nia. }
        assert (8388608 * 2 ^ (e + Zpos p + 149)
                <= Zpos M / 2 ^ Zpos p * 2 ^ (e + Zpos p + 149))
          by (apply Z.mul_le_mono_nonneg_r; [apply Z.pow_nonneg|]; lia).
        assert (Zpos mx * 2 ^ (ex + 149) <= 16777216 * 2 ^ (ex + 149))
          by (apply Z.mul_le_mono_nonneg_r; lia).
        lia. }
    destruct (e' <=? 104) eqn:Hemax; [|done].
    apply Z.leb_le in Hemax. split.
    + cbn [good_pos]. by apply bounded32.
    + by apply leb_of_value.
Qed.

(** Adding a positive finite value never decreases. *)
Lemma add_pos_ge a c :
  good_pos a = true -> good_pos c = true -> F32.is_finite c = true ->
  good_pos (a + c)%f32 = true ∧ (a <=? a + c)%f32 = true.
Proof.
  destruct a as [|[]| |[] mx ex]; try done;
    destruct c as [|[]| |[] mc ec]; try done.
  intros Ha Hc _. cbn [good_pos] in Ha, Hc.
  pose proof (proj1 (bounded32 mx ex) Ha) as [Hcx _].
  pose proof (proj1 (bounded32 mc ec) Hc) as [Hcc _].
  unfold F32.add, F32.leb, SFadd. cbn [cond_Zopp].
  destruct (shl_align_value mx ex (Z.min ex ec)) as [Hvx _]; [lia|].
  rewrite <- Pos2Z.inj_add. cbn [binary_normalize].
  apply binary_round_lower; [lia|done|].
  rewrite Pos2Z.inj_add, <- Hvx. lia.
Qed.

Lemma leb_refl a : good_pos a = true -> (a <=? a)%f32 = true.
Proof.
  destruct a as [|[]| |[] m e]; try done. intros _.
  unfold F32.leb, SFleb, SFcompare.
  by rewrite Z.compare_refl, Pos.compare_cont_refl.
Qed.

Lemma leb_trans a b c :
  good_pos a = true -> good_pos b = true -> good_pos c = true ->
  (a <=? b)%f32 = true -> (b <=? c)%f32 = true -> (a <=? c)%f32 = true.
Proof.
  destruct a as [|[]| |[] ma ea]; try done;
    destruct b as [|[]| |[] mb eb]; try done;
    destruct c as [|[]| |[] mc ec]; try done.
  intros _ _ _. unfold F32.leb, SFleb, SFcompare.
  change (PosDef.Pos.compare_cont Eq ma mb) with (Pos.compare ma mb).
  change (PosDef.Pos.compare_cont Eq mb mc) with (Pos.compare mb mc).
  change (PosDef.Pos.compare_cont Eq ma mc) with (Pos.compare ma mc).
  destruct (Z.compare_spec ea eb); try done;
    destruct (Z.compare_spec eb ec); try done;
    destruct (Z.compare_spec ea ec); try done; try lia;
    destruct (Pos.compare_spec ma mb); try done;
    destruct (Pos.compare_spec mb mc); try done;
    destruct (Pos.compare_spec ma mc); try done; lia.
Qed.

End Sums.

(** ** Escalation *)

Definition sizes_good (w : World) : Prop :=
  good_pos (particleSizeValue w) = true ∧ good_pos (initialCollide w) = true.

(** The test of the sudden-death branch, on the store size and
    [NUM_PARTICLES]. *)
Definition escalating (size : nat) (num : Z) : bool :=
  (Z.of_nat size <=? size_t_of_int (num ÷ 10))%Z || (Z.of_nat size <=? 5)%Z.

Lemma escalating_below_threshold size num :
  (- 2 ^ 31 <= num < 2 ^ 31)%Z ->
  (Z.of_nat size <= Z.max (num ÷ 10) 5)%Z ->
  escalating size num = true.
Proof.
  intros Hnum Hsize. unfold escalating, size_t_of_int.
  apply orb_true_iff.
  destruct (Z.le_gt_cases (Z.of_nat size) 5) as [|Hbig];
    [right; by apply Z.leb_le|left].
  apply Z.leb_le.
  assert (5 < num ÷ 10)%Z as Hq by lia.
  assert (0 <= num)%Z as Hpos.
  { destruct (Z.le_gt_cases 0 num) as [|Hneg]; [done|].
    pose proof (Z.quot_opp_l num 10). 
    assert (0 <= (- num) ÷ 10)%Z by (apply Z.quot_pos; lia).
    lia. }
  rewrite Z.quot_div_nonneg in * by lia.
  assert (num `div` 10 <= num)%Z
    by (apply Z.div_le_upper_bound; lia).
  rewrite Z.mod_small; lia.
Qed.

Lemma Input_sizes queue w :
  sizes_good w ->
  sizes_good (Input queue w)
  ∧ (particleSizeValue w <=? particleSizeValue (Input queue w))%f32 = true
  ∧ initialCollide (Input queue w) = initialCollide w.
Proof.
  unfold Input. revert w.
  induction queue as [|e queue IH]; intros w [Hps Hic].
  - split_and!; [done| |done]. by apply leb_refl.
  - cbn [foldl].
    assert (sizes_good (Input_event w e)
            ∧ (particleSizeValue w
               <=? particleSizeValue (Input_event w e))%f32 = true
            ∧ initialCollide (Input_event w e) = initialCollide w)
      as (Hgood & Hle & Heq).
    { destruct e; cbn; try (split_and!; [done|by apply leb_refl|done]).
      destruct (add_pos_ge (particleSizeValue w) step_0_5) as [? ?];
        done. }
    destruct (IH _ Hgood) as (Hgood' & Hle' & Heq').
    split_and!; [done| |congruence].
    destruct Hgood as [? _], Hgood' as [? _].
    by apply leb_trans with (particleSizeValue (Input_event w e)).
Qed.

Lemma updateParticles_sizes dt draws w :
  let b := escalating (length (particles (updateParticles dt draws w)))
             (NUM_PARTICLES w) in
  particleSizeValue (updateParticles dt draws w)
  = (if b then particleSizeValue w + step_0_005 else particleSizeValue w)%f32
  ∧ initialCollide (updateParticles dt draws w)
    = (if b then initialCollide w + step_0_005 else initialCollide w)%f32.
Proof.
  cbv zeta. rewrite updateParticles_particles. unfold updateParticles.
  set (w3 := update_vertexData (movement dt (collisions draws w))).
  assert (particles w3 = move dt <$> particles (collisions draws w)
          ∧ NUM_PARTICLES w3 = NUM_PARTICLES w
          ∧ particleSizeValue w3 = particleSizeValue w
          ∧ initialCollide w3 = initialCollide w) as (Hp & Hn & Hps & Hic).
  { subst w3.
    injection (update_vertexData_rest (movement dt (collisions draws w)))
      as -> -> -> -> _ _ _ _ _.
    rewrite movement_particles.
    destruct (scalars_sizes _ _ (movement_scalars dt (collisions draws w)))
      as [-> ->].
    destruct (scalars_sizes _ _ (collisions_scalars draws w)) as [-> ->].
    rewrite (scalars_NUM_PARTICLES _ _ (movement_scalars dt _)).
    by rewrite (scalars_NUM_PARTICLES _ _ (collisions_scalars draws w)). }
  unfold sudden_death.
  replace (sudden_death_condition w3)
    with (escalating (length (move dt <$> particles (collisions draws w)))
            (NUM_PARTICLES w))
    by (unfold sudden_death_condition, escalating; by rewrite Hp, Hn).
  destruct (escalating _ _); simpl; by rewrite ?Hps, ?Hic.
Qed.

Lemma frame_sizes inp w :
  let b := escalating (length (particles (frame inp w))) (NUM_PARTICLES w) in
  particleSizeValue (frame inp w)
  = (if b then particleSizeValue (Input (queue inp) w) + step_0_005
     else particleSizeValue (Input (queue inp) w))%f32
  ∧ initialCollide (frame inp w)
    = (if b then initialCollide w + step_0_005 else initialCollide w)%f32.
Proof.
  cbv zeta. unfold frame. rewrite winCheck_particles.
  injection (winCheck_rest (updateParticles (deltaTime inp) (draws inp)
                              (Input (queue inp) w)))
    as _ -> -> _ _ _ _.
  destruct (updateParticles_sizes (deltaTime inp) (draws inp)
              (Input (queue inp) w)) as [-> ->].
  injection (Input_rest (queue inp) w) as -> -> _ _ _ _ _.
  done.
Qed.

Lemma frame_sizes_good inp w :
  sizes_good w ->
  sizes_good (frame inp w)
  ∧ (particleSizeValue w <=? particleSizeValue (frame inp w))%f32 = true
  ∧ (initialCollide w <=? initialCollide (frame inp w))%f32 = true.
Proof.
  intros Hw. destruct (Input_sizes (queue inp) w Hw) as ([Hps Hic] & Hle & Heq).
  destruct Hw as [Hps0 Hic0].
  destruct (frame_sizes inp w) as [Hfps Hfic].
  unfold sizes_good. rewrite Hfps, Hfic. rewrite Heq in Hic.
  destruct (escalating _ _).
  - destruct (add_pos_ge (particleSizeValue (Input (queue inp) w))
                step_0_005) as [? ?]; [done..|].
    destruct (add_pos_ge (initialCollide w) step_0_005) as [? ?]; [done..|].
    split_and!; [done..| |done].
    by apply leb_trans with (particleSizeValue (Input (queue inp) w)).
  - split_and!; [done..|by apply leb_refl].
Qed.

Lemma sizes_good_start arg spawn : sizes_good (start arg spawn).
Proof. by rewrite start_spec. Qed.

Lemma reachable_sizes_good w : reachable w -> sizes_good w.
Proof.
  induction 1 as [arg spawn _|inp w _ IH _].
  - apply sizes_good_start.
  - by apply frame_sizes_good.
Qed.

Lemma reachable_int w :
  reachable w -> (- 2 ^ 31 <= NUM_PARTICLES w < 2 ^ 31)%Z.
Proof.
  induction 1 as [arg spawn Harg|inp w _ IH _].
  - change (main arg spawn []) with (start arg spawn). rewrite start_spec.
    cbn [NUM_PARTICLES]. destruct arg as [n|]; [by apply Harg|done].
  - by rewrite frame_NUM_PARTICLES.
Qed.

(** ** The random draw *)

Section Draw.
Local Open Scope Z_scope.

(** The binary32 value of a positive [int] is normal, with an exponent
    up to 8, and it is at most 2^31. *)
Lemma of_Z_positive_int r :
  0 < r < 2 ^ 31 ->
  exists m e,
    F32.of_Z r = S754_finite false m e
    ∧ Zpos (digits2_pos m) = 24
    ∧ -23 <= e <= 8
    ∧ (e = 8 -> m = 8388608%positive).
Proof.
  intros [Hpos Hint]. destruct r as [|M|M]; try lia.
  unfold F32.of_Z. cbn [binary_normalize]. unfold binary_round.
  rewrite fexp32.
  pose proof (digits2_pos_bounds M) as [Hlo Hhi].
  set (d := Zpos (digits2_pos M)) in *.
  assert (1 <= d) by (subst d; lia).
  assert (d <= 31) as Hd.
  { destruct (Z.le_gt_cases d 31) as [|Hbig]; [done|].
    assert (2 ^ 31 <= 2 ^ (d - 1)) by (apply Z.pow_le_mono_r; lia). lia. }
  replace (Z.max (d + 0 - 24) (-149)) with (d - 24) by lia.
  destruct (Z.le_gt_cases d 24) as [Hsmall|Hlarge].
  - destruct (shl_align_value M 0 (d - 24)) as [Hv Hs]; [lia|].
    destruct (shl_align M 0 (d - 24)) as [mz ez]. cbn [fst snd] in Hv, Hs.
    subst ez.
    assert (0 < 2 ^ (0 - (d - 24))) by (apply Z.pow_pos_nonneg; lia).
    assert (Zpos (digits2_pos mz) = 24) as Hdz.
    { set (k := 0 - (d - 24)) in *.
      assert (2 ^ 23 = 2 ^ (d - 1) * 2 ^ k) as H23
        by (rewrite <- Z.pow_add_r by lia; f_equal; lia).
      assert (2 ^ 24 = 2 ^ d * 2 ^ k) as H24
        by (rewrite <- Z.pow_add_r by lia; f_equal; lia).
      apply digits2_pos_unique. change (24 - 1) with 23.
      rewrite Hv, H23, H24. split.
      - apply Z.mul_le_mono_nonneg_r; lia.
      - apply Z.mul_lt_mono_pos_r; lia. }
    rewrite binary_round_aux_canonical by lia.
    replace (d - 24 <=? 104) with true by (symmetry; apply Z.leb_le; lia).
    exists mz, (d - 24). split_and!; [done..|lia|lia|lia].
  - assert (exists p, d = 24 + Zpos p) as [p Hp].
    { exists (Z.to_pos (d - 24)). rewrite Z2Pos.id; lia. }
    assert (shl_align M 0 (d - 24) = (M, 0)) as ->.
    { unfold shl_align. destruct (d - 24 - 0) eqn:?; [lia|done|lia]. }
    destruct (binary_round_aux_shift M 0 p)
      as (m' & e' & -> & Hc & He' & _ & _ & Hup); [lia|done|].
    replace (e' <=? 104) with true by (symmetry; apply Z.leb_le; lia).
    exists m', e'. split_and!; [done|lia|lia|lia|].
    intros ->. assert (Zpos p = 7) as Hp7 by lia.
    rewrite Hp7 in Hup. change (0 + 7 + 149) with 156 in Hup.
    change (8 + 149) with (1 + 156) in Hup.
    rewrite (Z.pow_add_r 2 1 156) in Hup by lia.
    assert (Zpos M / 2 ^ 7 < 2 ^ 24)
      by (apply Z.div_lt_upper_bound; [done|]; by rewrite <- Z.pow_add_r).
    assert (0 < 2 ^ 156) by done.
    change (2 ^ 1) with 2 in Hup. change (2 ^ 24) with 16777216 in *.
    assert (Zpos m' * 2 <= 16777216) as Hm'.
    { apply (Z.mul_le_mono_pos_r _ _ (2 ^ 156)); [done|].
      etrans; [|apply Z.mul_le_mono_nonneg_r with (n := Zpos M / 2 ^ 7 + 1);
                lia].
      lia. }
    pose proof (digits2_pos_bounds m') as [Hlo' _].
    replace (Zpos (digits2_pos m')) with 24 in Hlo' by lia.
    change (2 ^ (24 - 1)) with 8388608 in Hlo'. lia.
Qed.

(** An even mantissa of 25 digits loses its last digit exactly. *)
Lemma binary_round_aux_even m e :
  Zpos (digits2_pos m) = 24 -> -149 <= e -> e + 1 <= 104 ->
  binary_round_aux F32.prec F32.emax false (Zpos m~0) e loc_Exact
  = S754_finite false m (e + 1).
Proof.
  intros Hd He Hmax. unfold binary_round_aux.
  assert (shr_fexp F32.prec F32.emax (Zpos m~0) e loc_Exact
          = ({| shr_m := Zpos m; shr_r := false; shr_s := false |}, e + 1))
    as ->.
  { unfold shr_fexp. cbn [Zdigits2 digits2_pos].
    rewrite Pos2Z.inj_succ, Hd, fexp32.
    replace (Z.max (Z.succ 24 + e - 24) (-149) - e) with 1 by lia.
    reflexivity. }
  cbn [shr_m loc_of_shr_record round_nearest_even].
  rewrite shr_fexp_noshift by lia.
  cbn [shr_record_of_loc shr_m].
  change (F32.emax - F32.prec) with 104.
  by replace (e + 1 <=? 104) with true by (symmetry; apply Z.leb_le; lia).
Qed.

(** Dividing a normal value by [RAND_MAX] as a float, 2^31, lowers the
    exponent by 31. *)
Lemma div_by_RAND_MAX m e :
  Zpos (digits2_pos m) = 24 -> -23 <= e <= 8 ->
  (S754_finite false m e / F32.of_Z RAND_MAX)%f32
  = S754_finite false m (e - 31).
Proof.
  intros Hd He.
  replace (F32.of_Z RAND_MAX) with (S754_finite false 8388608 8)
    by reflexivity.
  unfold F32.div, SFdiv, SFdiv_core_binary. cbn [xorb].
  cbn [Zdigits2]. rewrite Hd.
  replace (Zpos (digits2_pos 8388608)) with 24 by reflexivity.
  rewrite fexp32.
  replace (Z.min (Z.max (24 + e - (24 + 8) - 24) (-149)) (e - 8))
    with (e - 32) by lia.
  replace (e - 8 - (e - 32)) with 24 by lia.
  rewrite Z.shiftl_mul_pow2 by lia.
  assert (Z.div_eucl (Zpos m * 2 ^ 24) 8388608 = (Zpos m~0, 0)) as ->.
  { pose proof (Z.div_eucl_eq (Zpos m * 2 ^ 24) 8388608) as Heq.
    pose proof (Z.mod_pos_bound (Zpos m * 2 ^ 24) 8388608) as Hmod.
    unfold Z.modulo in Hmod.
    destruct (Z.div_eucl (Zpos m * 2 ^ 24) 8388608) as [q r].
    change (2 ^ 24) with 16777216 in Heq.
    rewrite (Pos2Z.inj_xO m).
    assert (q = 2 * Zpos m ∧ r = 0) as [-> ->] by lia. done. }
  replace (new_location 8388608 0) with loc_Exact by reflexivity.
  rewrite binary_round_aux_even by lia.
  f_equal. lia.
Qed.

(** The draw of [handleCollision] lies in [0, 1], and it is zero exactly
    when [rand()] returns zero. *)
Lemma randomNumber_range r :
  0 <= r <= RAND_MAX ->
  (F32.zero <=? randomNumber r)%f32 = true
  ∧ (randomNumber r <=? F32.one)%f32 = true
  ∧ ((randomNumber r == F32.zero)%f32 = true <-> r = 0).
Proof.
  intros [Hlo Hhi]. unfold RAND_MAX in Hhi.
  destruct (Z.eq_dec r 0) as [->|Hr]; [done|].
  destruct (of_Z_positive_int r) as (m & e & Hof & Hd & He & Hmax);
    [change (2 ^ 31) with 2147483648; lia|].
  unfold randomNumber. rewrite Hof, div_by_RAND_MAX by done.
  split_and!; [done| |split; [done|lia]].
  unfold F32.leb, SFleb, SFcompare, F32.one.
  destruct (Z.compare_spec (e - 31) (-23)) as [Heq|Hlt|Hgt]; [|done|lia].
  rewrite Hmax by lia. reflexivity.
Qed.

End Draw.

(** ** Termination of the collision pass *)

(** The fuel [collisions] gives the two loops is enough: more of it
    changes nothing. *)
Lemma collide_inner_fuel fuel fuel' draws i j w :
  length (particles w) - j ≤ fuel ->
  length (particles w) - j ≤ fuel' ->
  collide_inner fuel draws i j w = collide_inner fuel' draws i j w.
Proof.
  revert fuel' j w.
  induction fuel as [|fuel IH]; intros [|fuel'] j w Hf Hf'; simpl;
    try done; try (by rewrite decide_False by lia).
  case_decide; [|done].
  destruct (particles w !! i) as [pi|]; [|done].
  destruct (particles w !! j) as [pj|]; [|done].
  set (w' := if checkCollision w pi pj then _ else w).
  assert (length (particles w') ≤ length (particles w)).
  { subst w'. destruct (checkCollision w pi pj); [|done].
    apply sublist_length, handleCollision_sublist. }
  apply IH; lia.
Qed.

Lemma collide_outer_fuel fuel fuel' draws i w :
  length (particles w) - i ≤ fuel ->
  length (particles w) - i ≤ fuel' ->
  collide_outer fuel draws i w = collide_outer fuel' draws i w.
Proof.
  revert fuel' i w.
  induction fuel as [|fuel IH]; intros [|fuel'] i w Hf Hf'; simpl;
    try done; try (by rewrite decide_False by lia).
  case_decide; [|done].
  pose proof (sublist_length _ _
                (collide_inner_sublist (length (particles w)) draws i (S i) w)).
  apply IH; lia.
Qed.

Lemma collisions_enough_fuel fuel draws w :
  length (particles w) ≤ fuel ->
  collide_outer fuel draws 0 w = collisions draws w.
Proof. intros Hf. apply collide_outer_fuel; lia. Qed.

(** ** Reachable worlds and [main] *)

Lemma MainLoop_reachable inps w : reachable w -> reachable (MainLoop inps w).
Proof.
  revert w. induction inps as [|inp inps IH]; intros w Hw; simpl; [done|].
  destruct (gQuit w) eqn:Hquit; [done|].
  by apply IH, reachable_frame.
Qed.

Lemma main_reachable arg spawn inps :
  (forall n, arg = Some n -> (- 2 ^ 31 <= n < 2 ^ 31)%Z) ->
  reachable (main arg spawn inps).
Proof.
  intros Harg.
  change (main arg spawn inps) with (MainLoop inps (main arg spawn [])).
  by apply MainLoop_reachable, reachable_start.
Qed.

(** [Z.to_nat NUM_PARTICLES] is the number of particles the spawning loop
    creates, the initial particle count. *)
Lemma initial_count arg spawn :
  length (particles (main arg spawn []))
  = Z.to_nat (NUM_PARTICLES (main arg spawn [])).
Proof.
  change (main arg spawn []) with (start arg spawn). rewrite start_spec.
  simpl. by rewrite length_fmap, length_seq.
Qed.

(** ** Equality on position and colour *)

Lemma eqb_self a : (a == a)%f32 = negb (F32.is_nan a).
Proof.
  unfold F32.eqb, SFeqb.
  destruct a as [[]|[]| |[] m e]; cbn [SFcompare F32.is_nan negb]; try done;
    by rewrite Z.compare_refl, Pos.compare_cont_refl.
Qed.

Lemma eqb_not_nan a b :
  (a == b)%f32 = true -> F32.is_nan a = false ∧ F32.is_nan b = false.
Proof. by destruct a as [[]|[]| |[] ? ?], b as [[]|[]| |[] ? ?]. Qed.

(** Equality as the specification words it, field by field on position
    and colour: each of the six floats compares equal, with the [==] of
    binary32, to the target's. *)
Definition field_wise_equal (q target : Particle) : bool :=
  (glm.x (position q) == glm.x (position target))%f32
  && (glm.y (position q) == glm.y (position target))%f32
  && (glm.z (position q) == glm.z (position target))%f32
  && (glm.r (color q) == glm.r (color target))%f32
  && (glm.g (color q) == glm.g (color target))%f32
  && (glm.b (color q) == glm.b (color target))%f32.

(** None of the six floats is a not-a-number. *)
Definition nan_free (p : Particle) : bool :=
  negb (F32.is_nan (glm.x (position p)))
  && negb (F32.is_nan (glm.y (position p)))
  && negb (F32.is_nan (glm.z (position p)))
  && negb (F32.is_nan (glm.r (color p)))
  && negb (F32.is_nan (glm.g (color p)))
  && negb (F32.is_nan (glm.b (color p))).

(** Removal as the specification words it: the store without the first
    particle, in store order, that is field-wise equal to the target. *)
Fixpoint delete_first_equal (target : Particle) (store : list Particle)
  : list Particle :=
  match store with
  | [] => []
  | q :: store =>
      if field_wise_equal q target then store
      else q :: delete_first_equal target store
  end.

Lemma Particle_eqb_field_wise q target :
  Particle_eqb q target = field_wise_equal q target.
Proof.
  unfold Particle_eqb, field_wise_equal, glm.eqb, glm.r, glm.g, glm.b.
  by rewrite !andb_assoc.
Qed.

Lemma field_wise_equal_self p : field_wise_equal p p = nan_free p.
Proof. unfold field_wise_equal, nan_free. by rewrite !eqb_self. Qed.

Lemma field_wise_equal_nan_free q target :
  field_wise_equal q target = true -> nan_free target = true.
Proof.
  unfold field_wise_equal, nan_free. rewrite !andb_true_iff.
  intros [[[[[H1 H2] H3] H4] H5] H6].
  apply eqb_not_nan in H1 as [_ ->], H2 as [_ ->], H3 as [_ ->],
    H4 as [_ ->], H5 as [_ ->], H6 as [_ ->].
  done.
Qed.

Lemma removeParticle_delete_first_equal target w :
  particles (removeParticle target w)
  = delete_first_equal target (particles w).
Proof.
  unfold removeParticle.
  assert (forall l,
             match list_find (fun q => Particle_eqb q target = true) l with
             | Some (i, _) => delete i l
             | None => l
             end = delete_first_equal target l) as Hfind.
  { induction l as [|q l IH]; [done|]. cbn [list_find delete_first_equal].
    rewrite <- Particle_eqb_field_wise.
    case_decide as Hq; [by rewrite Hq|].
    destruct (Particle_eqb q target); [done|].
    rewrite <- IH.
    by destruct (list_find _ l) as [[i q']|]. }
  rewrite <- Hfind.
  by destruct (list_find _ (particles w)) as [[i q]|].
Qed.

(** The first particle that agrees with a particle of the store sits at
    that particle's index or before it. *)
Lemma first_match_before slot chosen k q (l : list Particle) :
  l !! slot = Some chosen ->
  l !! k = Some q ->
  field_wise_equal q chosen = true ->
  (forall k' q', k' < k -> l !! k' = Some q' ->
                 field_wise_equal q' chosen = false) ->
  k ≤ slot.
Proof.
  intros Hslot Hk Hq Hfirst.
  destruct (decide (k ≤ slot)) as [|Hgt]; [done|].
  apply field_wise_equal_nan_free in Hq.
  rewrite <- field_wise_equal_self, (Hfirst slot chosen) in Hq;
    [done|lia|done].
Qed.

(** ** The sudden-death step *)

Section Increment.
Local Open Scope Z_scope.

Lemma ltb_leb_trans a b c :
  good_pos a = true -> good_pos b = true -> good_pos c = true ->
  (a <? b)%f32 = true -> (b <=? c)%f32 = true -> (a <? c)%f32 = true.
Proof.
  destruct a as [|[]| |[] ma ea]; try done;
    destruct b as [|[]| |[] mb eb]; try done;
    destruct c as [|[]| |[] mc ec]; try done.
  intros _ _ _. unfold F32.ltb, F32.leb, SFltb, SFleb, SFcompare.
  change (PosDef.Pos.compare_cont Eq ma mb) with (Pos.compare ma mb).
  change (PosDef.Pos.compare_cont Eq mb mc) with (Pos.compare mb mc).
  change (PosDef.Pos.compare_cont Eq ma mc) with (Pos.compare ma mc).
  destruct (Z.compare_spec ea eb); try done;
    destruct (Z.compare_spec eb ec); try done;
    destruct (Z.compare_spec ea ec); try done; try lia;
    destruct (Pos.compare_spec ma mb); try done;
    destruct (Pos.compare_spec mb mc); try done;
    destruct (Pos.compare_spec ma mc); try done; lia.
Qed.

Lemma leb_ltb_trans a b c :
  good_pos a = true -> good_pos b = true -> good_pos c = true ->
  (a <=? b)%f32 = true -> (b <? c)%f32 = true -> (a <? c)%f32 = true.
Proof.
  destruct a as [|[]| |[] ma ea]; try done;
    destruct b as [|[]| |[] mb eb]; try done;
    destruct c as [|[]| |[] mc ec]; try done.
  intros _ _ _. unfold F32.ltb, F32.leb, SFltb, SFleb, SFcompare.
  change (PosDef.Pos.compare_cont Eq ma mb) with (Pos.compare ma mb).
  change (PosDef.Pos.compare_cont Eq mb mc) with (Pos.compare mb mc).
  change (PosDef.Pos.compare_cont Eq ma mc) with (Pos.compare ma mc).
  destruct (Z.compare_spec ea eb); try done;
    destruct (Z.compare_spec eb ec); try done;
    destruct (Z.compare_spec ea ec); try done; try lia;
    destruct (Pos.compare_spec ma mb); try done;
    destruct (Pos.compare_spec mb mc); try done;
    destruct (Pos.compare_spec ma mc); try done; lia.
Qed.

(** A canonical mantissa has at most 24 digits, and exactly 24 above the
    smallest exponent. *)
Lemma canonical_digits m e :
  bounded F32.prec F32.emax m e = true ->
  -149 <= e <= 104 ∧ Zpos m < 16777216
  ∧ (-149 < e -> 8388608 <= Zpos m).
Proof.
  intros [Hc He]%bounded32.
  pose proof (digits2_pos_bounds m) as [Hlo Hhi].
  assert (Zpos (digits2_pos m) <= 24) as Hd by lia.
  split_and!; [lia..| |].
  - eapply Z.lt_le_trans; [done|]. by apply (Z.pow_le_mono_r 2 _ 24).
  - intros Hn. by replace (Zpos (digits2_pos m)) with 24 in Hlo by lia.
Qed.

(** The next binary32 value above a positive finite one. *)
Definition succ_pos (m : positive) (e : Z) : positive * Z :=
  if Zpos m + 1 <? 16777216 then ((m + 1)%positive, e)
  else (8388608%positive, e + 1).

Lemma succ_pos_spec m e :
  bounded F32.prec F32.emax m e = true -> e < 104 ->
  let (m', e') := succ_pos m e in
  bounded F32.prec F32.emax m' e' = true
  ∧ e <= e'
  ∧ Zpos m' * 2 ^ (e' - e) = Zpos m + 1
  ∧ SFltb (S754_finite false m e) (S754_finite false m' e') = true.
Proof.
  intros Hb He. destruct (canonical_digits m e Hb) as (Hrange & Hhi & Hlo).
  unfold succ_pos. destruct (Z.ltb_spec (Zpos m + 1) 16777216) as [Hlt|Hge].
  - split_and!; [|lia| |].
    + apply bounded32. split; [|lia].
      destruct (Z.eq_dec e (-149)) as [->|Hne].
      * pose proof (digits2_pos_bounds (m + 1)) as [Hlo' _].
        assert (Zpos (digits2_pos (m + 1)) <= 24); [|lia].
        destruct (Z.le_gt_cases (Zpos (digits2_pos (m + 1))) 24) as [|Hbig];
          [done|].
        assert (2 ^ 24 <= 2 ^ (Zpos (digits2_pos (m + 1)) - 1))
          by (apply Z.pow_le_mono_r; lia).
        change (2 ^ 24) with 16777216 in *. lia.
      * rewrite (digits2_pos_unique (m + 1) 24); [lia|].
        change (2 ^ (24 - 1)) with 8388608. change (2 ^ 24) with 16777216.
        lia.
    + rewrite Z.sub_diag. change (2 ^ 0) with 1. lia.
    + unfold SFltb, SFcompare. rewrite Z.compare_refl.
      change (PosDef.Pos.compare_cont Eq m (m + 1))
        with (Pos.compare m (m + 1)).
      by rewrite (proj2 (Pos.compare_lt_iff m (m + 1))) by lia.
  - split_and!; [|lia| |].
    + apply bounded32. split; [|lia].
      change (Zpos (digits2_pos 8388608)) with 24. lia.
    + replace (e + 1 - e) with 1 by lia. change (2 ^ 1) with 2. lia.
    + unfold SFltb, SFcompare.
      by rewrite (proj2 (Z.compare_lt_iff e (e + 1))) by lia.
Qed.

(** Below 2^16 the step 0.005 is at least the distance to the next
    value, so the sum reaches it. *)
Lemma add_step_gt_small mx ex :
  bounded F32.prec F32.emax mx ex = true -> ex <= -8 ->
  (S754_finite false mx ex
   <? S754_finite false mx ex + step_0_005)%f32 = true.
Proof.
  intros Ha Hex.
  destruct (canonical_digits mx ex Ha) as (Hrange & Hhi & Hlo).
  pose proof (succ_pos_spec mx ex Ha) as Hsucc.
  destruct (succ_pos mx ex) as [ms es].
  destruct Hsucc as (Hbs & Hes & Hvs & Hlt); [lia|].
  assert (good_pos (S754_finite false mx ex + step_0_005)%f32 = true
          ∧ (S754_finite false ms es
             <=? S754_finite false mx ex + step_0_005)%f32 = true)
    as [Hgood Hle].
  { unfold F32.add, F32.leb, SFadd, step_0_005. cbn [cond_Zopp].
    destruct (shl_align_value mx ex (Z.min ex (-31))) as [Hvx _]; [lia|].
    destruct (shl_align_value 10737418 (-31) (Z.min ex (-31))) as [Hvc _];
      [lia|].
    rewrite <- Pos2Z.inj_add. cbn [binary_normalize].
    apply binary_round_lower; [lia|done|].
    rewrite Pos2Z.inj_add, Hvx, Hvc.
    assert (0 < 2 ^ (ex - Z.min ex (-31))) by (apply Z.pow_pos_nonneg; lia).
    assert (2 ^ (ex - Z.min ex (-31))
            <= 10737418 * 2 ^ (-31 - Z.min ex (-31))) as Hulp.
    { destruct (Z.le_gt_cases (-31) ex) as [Hbig|Hsmall].
      - rewrite Z.min_r by lia. rewrite Z.sub_diag. change (2 ^ 0) with 1.
        assert (2 ^ (ex - -31) <= 2 ^ 23)
          by (apply Z.pow_le_mono_r; lia).
        change (2 ^ 23) with 8388608 in *. lia.
      - rewrite Z.min_l by lia. rewrite Z.sub_diag. change (2 ^ 0) with 1.
        assert (0 < 2 ^ (-31 - ex)) by (apply Z.pow_pos_nonneg; lia).
        lia. }
    replace (es - Z.min ex (-31))
      with ((es - ex) + (ex - Z.min ex (-31))) by lia.
    rewrite Z.pow_add_r by lia. rewrite Z.mul_assoc, Hvs. lia. }
  by apply ltb_leb_trans with (S754_finite false ms es).
Qed.

(** Between 2^16 and 2^17 the step is more than half the distance to the
    next value, and the sum is rounded up to it. *)
Lemma add_step_gt_large mx :
  bounded F32.prec F32.emax mx (-7) = true ->
  (S754_finite false mx (-7)
   <? S754_finite false mx (-7) + step_0_005)%f32 = true.
Proof.
  intros Ha.
  destruct (canonical_digits mx (-7) Ha) as (_ & Hhi & Hlo).
  specialize (Hlo ltac:(lia)).
  assert (Zpos (digits2_pos mx) = 24) as Hd.
  { apply digits2_pos_unique.
    change (2 ^ (24 - 1)) with 8388608. change (2 ^ 24) with 16777216. lia. }
  injection Hd as Hd.
  pose proof (succ_pos_spec mx (-7) Ha) as Hsucc.
  assert ((S754_finite false mx (-7) + step_0_005)%f32
          = let (ms, es) := succ_pos mx (-7) in S754_finite false ms es)
    as ->.
  { unfold F32.add, SFadd, step_0_005. cbn [cond_Zopp].
    change (Z.min (-7) (-31)) with (-31).
    change (fst (shl_align 10737418 (-31) (-31))) with 10737418%positive.
    rewrite <- Pos2Z.inj_add. cbn [binary_normalize].
    unfold binary_round.
    set (M := (fst (shl_align mx (-7) (-31)) + 10737418)%positive).
    assert (M = mx~1~0~1~0~0~0~1~1~1~1~0~1~0~1~1~1~0~0~0~0~1~0~1~0%positive)
      as HM by reflexivity.
    assert (digits2_pos M = 48%positive) as HdM
      by (rewrite HM; cbn [digits2_pos]; rewrite Hd; reflexivity).
    rewrite HdM.
    change (shl_align M (-31) (fexp F32.prec F32.emax (48 + -31)))
      with (M, -31).
    unfold binary_round_aux.
    assert (shr_fexp F32.prec F32.emax (Zpos M) (-31) loc_Exact
            = ({| shr_m := Zpos mx; shr_r := true; shr_s := true |}, -7))
      as ->.
    { unfold shr_fexp. cbn [Zdigits2]. rewrite HdM. rewrite HM.
      reflexivity. }
    cbn [shr_m loc_of_shr_record round_nearest_even].
    unfold succ_pos.
    change (Zpos mx + 1) with (Zpos (mx + 1)).
    destruct (Z.ltb_spec (Zpos (mx + 1)) 16777216) as [Hlt|Hge].
    - rewrite shr_fexp_noshift; [reflexivity|].
      rewrite (digits2_pos_unique (mx + 1) 24); [lia|].
      change (2 ^ (24 - 1)) with 8388608. change (2 ^ 24) with 16777216.
      lia.
    - assert (mx = 16777215%positive) as -> by lia. reflexivity. }
  destruct (succ_pos mx (-7)) as [ms es].
  by destruct Hsucc as (_ & _ & _ & Hlt); [lia|].
Qed.

(** Adding 0.005 to a positive value below 2^17 = 131072 gives a larger
    value; from 131072 on the sum is rounded back to the value itself. *)
Lemma add_step_gt a :
  good_pos a = true ->
  (a <? F32.of_Z 131072)%f32 = true ->
  (a <? a + step_0_005)%f32 = true.
Proof.
  destruct a as [|[]| |[] mx ex]; try done. cbn [good_pos].
  intros Ha Hlt.
  destruct (canonical_digits mx ex Ha) as (Hrange & Hhi & Hlo).
  assert (ex <= -7) as Hex.
  { revert Hlt. unfold F32.ltb, SFltb.
    change (F32.of_Z 131072) with (S754_finite false 8388608 (-6)).
    cbn [SFcompare].
    destruct (Z.compare_spec ex (-6)) as [->|?|?]; [|lia|done].
    change (PosDef.Pos.compare_cont Eq mx 8388608)
      with (Pos.compare mx 8388608).
    destruct (Pos.compare_spec mx 8388608); try done. lia. }
  destruct (Z.eq_dec ex (-7)) as [->|Hne].
  - by apply add_step_gt_large.
  - apply add_step_gt_small; [done|lia].
Qed.

End Increment.

Example add_step_at_131072 :
  (F32.of_Z 131072 + step_0_005)%f32 = F32.of_Z 131072.
Proof. reflexivity. Qed.

(** * The statements of the specification *)

(** Two particles spawned on the same spot, and a frame in which [rand()]
    returns 1: the pair collides and the first one is removed. *)
Definition same_spot : nat -> SpawnDraws :=
  fun _ => mkSpawnDraws F32.zero F32.zero F32.zero F32.zero F32.zero
             F32.zero 0 0.

Definition two_on_a_spot : World := main (Some 2%Z) same_spot [].

Definition quiet_frame : FrameInput :=
  mkFrameInput [] F32.zero (fun _ => 1%Z).

Lemma two_on_a_spot_reachable : reachable two_on_a_spot.
Proof. apply reachable_start. intros n [= <-]. lia. Qed.

(** C8 -- monotone population: a frame update never leaves more particles
    in the store than it found, for [updateParticles], for a whole frame
    and for any number of frames of the main loop. *)
Theorem population_never_increases inp dt draws inps w :
  length (particles (updateParticles dt draws w)) ≤ length (particles w)
  ∧ length (particles (frame inp w)) ≤ length (particles w)
  ∧ length (particles (MainLoop inps w)) ≤ length (particles w).
Proof.
  split; [apply updateParticles_shrinks|].
  split; [apply frame_shrinks|].
  apply (MainLoop_invariant
           (fun w' => length (particles w') ≤ length (particles w)));
    [|done].
  intros inp' w' Hw'. etrans; [apply frame_shrinks|done].
Qed.

(** C10 -- the length of the flat vertex buffer is never changed by a
    frame: in every reachable world it is 6 times the initial particle
    count, it still is after the frame, and the floats behind the
    6 * size slots of the surviving particles are the stale ones the
    buffer held before the frame. *)
Theorem vertexData_length_is_frozen inp w :
  reachable w ->
  length (vertexData w) = 6 * Z.to_nat (NUM_PARTICLES w)
  ∧ length (vertexData (frame inp w)) = 6 * Z.to_nat (NUM_PARTICLES w)
  ∧ NUM_PARTICLES (frame inp w) = NUM_PARTICLES w
  ∧ (forall k, 6 * length (particles (frame inp w)) ≤ k ->
        vertexData (frame inp w) !! k = vertexData w !! k).
Proof.
  intros Hw. destruct (reachable_sizes_ok w Hw) as [Hlen Hroom].
  split; [done|].
  split; [by rewrite length_frame_vertexData|].
  split; [apply frame_NUM_PARTICLES|].
  intros k Hk. rewrite frame_vertexData by lia.
  rewrite lookup_app_r by (rewrite length_flatten; lia).
  rewrite length_flatten, lookup_drop. f_equal. lia.
Qed.

Lemma vertexData_length_is_frozen_witness :
  length (vertexData two_on_a_spot)
  = 6 * Z.to_nat (NUM_PARTICLES two_on_a_spot)
  ∧ length (vertexData (frame quiet_frame two_on_a_spot))
    = 6 * Z.to_nat (NUM_PARTICLES two_on_a_spot)
  ∧ NUM_PARTICLES (frame quiet_frame two_on_a_spot)
    = NUM_PARTICLES two_on_a_spot
  ∧ (forall k, 6 * length (particles (frame quiet_frame two_on_a_spot)) ≤ k ->
        vertexData (frame quiet_frame two_on_a_spot) !! k
        = vertexData two_on_a_spot !! k).
Proof.
  apply (vertexData_length_is_frozen quiet_frame two_on_a_spot).
  apply two_on_a_spot_reachable.
Defined.

(** C1, as stated, fails: after the frame the store holds one particle and
    the buffer still holds twelve floats. *)
Lemma buffer_longer_than_store :
  reachable two_on_a_spot
  ∧ length (particles (frame quiet_frame two_on_a_spot)) = 1
  ∧ length (vertexData (frame quiet_frame two_on_a_spot)) = 12
  ∧ length (vertexData (frame quiet_frame two_on_a_spot))
    <> 6 * length (particles (frame quiet_frame two_on_a_spot)).
Proof.
  split; [apply two_on_a_spot_reachable|]. by vm_compute.
Qed.

(** C1, amended -- after each frame's buffer synchronisation the flat
    vertex buffer has room for the store: its length is 6 times the store
    size plus 6 for every particle eliminated since the start, and its
    first 6 * size floats are the positions and colours of the store, in
    store order. *)
Theorem vertexData_covers_store inp w :
  reachable w ->
  length (vertexData (frame inp w))
  = 6 * length (particles (frame inp w))
    + 6 * (Z.to_nat (NUM_PARTICLES w) - length (particles (frame inp w)))
  ∧ length (particles (frame inp w)) ≤ Z.to_nat (NUM_PARTICLES w)
  ∧ take (6 * length (particles (frame inp w))) (vertexData (frame inp w))
    = flatten (particles (frame inp w)).
Proof.
  intros Hw. destruct (reachable_sizes_ok w Hw) as [Hlen Hroom].
  pose proof (frame_shrinks inp w) as Hle.
  split; [rewrite length_frame_vertexData; lia|].
  split; [lia|].
  rewrite frame_vertexData by lia.
  rewrite take_app_length'; [done|]. by rewrite length_flatten.
Qed.

Lemma vertexData_covers_store_witness :
  length (vertexData (frame quiet_frame two_on_a_spot))
  = 6 * length (particles (frame quiet_frame two_on_a_spot))
    + 6 * (Z.to_nat (NUM_PARTICLES two_on_a_spot)
           - length (particles (frame quiet_frame two_on_a_spot)))
  ∧ length (particles (frame quiet_frame two_on_a_spot))
    ≤ Z.to_nat (NUM_PARTICLES two_on_a_spot)
  ∧ take (6 * length (particles (frame quiet_frame two_on_a_spot)))
      (vertexData (frame quiet_frame two_on_a_spot))
    = flatten (particles (frame quiet_frame two_on_a_spot)).
Proof.
  apply (vertexData_covers_store quiet_frame two_on_a_spot).
  apply two_on_a_spot_reachable.
Defined.

(** Two particles that [operator==] cannot tell apart although they move
    differently: removing the second one by value deletes the first. *)
Definition resting : Particle :=
  mkParticle (glm.mk_vec3 F32.zero F32.zero F32.zero)
    (glm.mk_vec3 F32.one F32.zero F32.zero) 0 F32.one
    (glm.mk_vec3 F32.zero F32.zero F32.zero) spawn_acceleration.

Definition rising : Particle :=
  mkParticle (glm.mk_vec3 F32.zero F32.zero F32.zero)
    (glm.mk_vec3 F32.one F32.zero F32.zero) 0 F32.one
    (glm.mk_vec3 F32.zero F32.one F32.zero) spawn_acceleration.

Example removeParticle_twins :
  particles (removeParticle rising (with_particles [resting; rising] globals))
  = [rising].
Proof. reflexivity. Qed.

(** C4 -- removal by value: [Particle::operator==] compares the three
    coordinates of the position and the three components of the colour
    with [==], and nothing else; [removeParticle] deletes the first
    particle of the store, in store order, that agrees with the target on
    these six floats, wherever the target itself sits, and writes no other
    global; when some particle agrees the store loses exactly one element,
    and when none does nothing changes.  A particle with the position and
    colour of the target agrees with it unless one of the six floats is a
    not-a-number: a target of the store with none always finds a match, a
    target with one never does, not even itself. *)
Theorem removeParticle_deletes_first_match target w :
  (forall q, Particle_eqb q target = field_wise_equal q target)
  ∧ particles (removeParticle target w)
    = delete_first_equal target (particles w)
  ∧ (scalars (removeParticle target w), rand_calls (removeParticle target w))
    = (scalars w, rand_calls w)
  ∧ (forall i q,
      particles w !! i = Some q ->
      field_wise_equal q target = true ->
      (forall j q', j < i -> particles w !! j = Some q' ->
                    field_wise_equal q' target = false) ->
      particles (removeParticle target w) = delete i (particles w)
      ∧ particles (removeParticle target w)
        = take i (particles w) ++ drop (S i) (particles w))
  ∧ ((exists q, q ∈ particles w ∧ field_wise_equal q target = true) ->
     S (length (particles (removeParticle target w)))
     = length (particles w))
  ∧ ((forall q, q ∈ particles w -> field_wise_equal q target = false) ->
     removeParticle target w = w)
  ∧ (forall p q q',
        position q' = position q -> color q' = color q ->
        Particle_eqb q' p = Particle_eqb q p
        ∧ Particle_eqb p q' = Particle_eqb p q)
  ∧ (forall q,
        position q = position target -> color q = color target ->
        field_wise_equal q target = nan_free target)
  ∧ (target ∈ particles w -> nan_free target = true ->
     S (length (particles (removeParticle target w)))
     = length (particles w))
  ∧ (nan_free target = false -> removeParticle target w = w).
Proof.
  assert ((exists q, q ∈ particles w ∧ Particle_eqb q target = true) ->
          S (length (particles (removeParticle target w)))
          = length (particles w)) as Hone.
  { intros Hex.
    destruct (removeParticle_present target w Hex)
      as (i & q & Hi & _ & _ & ->).
    simpl. by apply length_delete_lookup with q. }
  split_and!.
  - intros q. apply Particle_eqb_field_wise.
  - apply removeParticle_delete_first_equal.
  - by rewrite removeParticle_scalars, removeParticle_rand_calls.
  - intros i q Hi Hq Hfirst.
    rewrite (removeParticle_first target w i q Hi).
    + simpl. split; [done|apply delete_take_drop].
    + by rewrite Particle_eqb_field_wise.
    + intros j q' Hlt Hj. rewrite Particle_eqb_field_wise.
      by apply Hfirst with j.
  - intros (q & Hin & Hq). apply Hone. exists q.
    by rewrite Particle_eqb_field_wise.
  - intros Hnone. apply removeParticle_absent. intros q Hq.
    rewrite Particle_eqb_field_wise. by apply Hnone.
  - intros p q q' Hpos Hcol. unfold Particle_eqb.
    by rewrite Hpos, Hcol.
  - intros q Hpos Hcol. rewrite <- (field_wise_equal_self target).
    unfold field_wise_equal. by rewrite Hpos, Hcol.
  - intros Hin Hnan. apply Hone. exists target.
    by rewrite Particle_eqb_field_wise, field_wise_equal_self.
  - intros Hnan. apply removeParticle_absent. intros q _.
    rewrite Particle_eqb_field_wise.
    destruct (field_wise_equal q target) eqn:Hq; [|done].
    apply field_wise_equal_nan_free in Hq. congruence.
Qed.

(** Two particles spawned with the same position and colour draws and
    different velocity draws: the first rests, the second moves to the
    right at 0.5. *)
Definition twin_spawns : nat -> SpawnDraws :=
  fun n => mkSpawnDraws (F32.lit 1 2) (F32.lit 1 2) (F32.lit 1 2)
             (F32.lit 1 2) (F32.lit 1 2) (F32.lit 1 2)
             (match n with 0 => 100 | _ => 150 end) 100.

Definition twins : World := main (Some 2%Z) twin_spawns [].

Definition first_twin : Particle := spawn_particle (twin_spawns 0).
Definition second_twin : Particle := spawn_particle (twin_spawns 1).

Definition zero_draws : FrameInput :=
  mkFrameInput [] F32.zero (fun _ => 0%Z).

Lemma twins_reachable : reachable twins.
Proof. apply reachable_start. intros n [= <-]. lia. Qed.

(** C3, as stated, fails: the store holds the twins, a resting particle
    and one moving to the right, on the same spot and of the same colour;
    they collide, [rand()] returns 0 and the draw is exactly zero, yet the
    particle that goes is the first of the pair: the store is left with
    the second, the moving one. *)
Lemma zero_draw_erases_the_first :
  reachable twins
  ∧ particles twins = [first_twin; second_twin]
  ∧ velocity first_twin = glm.mk_vec3 F32.zero F32.zero F32.zero
  ∧ velocity second_twin = glm.mk_vec3 (F32.lit 1 2) F32.zero F32.zero
  ∧ checkCollision twins first_twin second_twin = true
  ∧ (randomNumber 0 == F32.zero)%f32 = true
  ∧ particles (handleCollision 0 first_twin second_twin twins)
    = [second_twin]
  ∧ particles (handleCollision 0 first_twin second_twin twins)
    <> [first_twin]
  ∧ particles (collisions (draws zero_draws) twins) = [second_twin]
  ∧ particles (frame zero_draws twins) = [second_twin].
Proof.
  split; [apply twins_reachable|]. by vm_compute.
Qed.

(** C3, amended -- elimination policy: [handleCollision] calls [rand()]
    once; the draw, the quotient of the result by [RAND_MAX], lies in
    [0, 1] and is exactly zero only when [rand()] returned 0; the particle
    chosen is then the second of the pair, and for every other draw the
    first.  The chosen particle is removed by value: the store loses the
    first particle, in store order, that agrees with the chosen one on
    position and colour.  That particle sits at the chosen one's index
    when no earlier particle agrees with the chosen one, and otherwise at
    the first index whose particle does.  A chosen particle with no
    not-a-number in position and colour always costs the store one
    particle; one with a not-a-number costs it none. *)
Theorem handleCollision_policy rand_result i j p1 p2 w :
  (0 <= rand_result <= RAND_MAX)%Z ->
  particles w !! i = Some p1 ->
  particles w !! j = Some p2 ->
  let draw := randomNumber rand_result in
  let chosen := if (draw == F32.zero)%f32 then p2 else p1 in
  let slot := if (draw == F32.zero)%f32 then j else i in
  let after := handleCollision rand_result p1 p2 w in
  rand_calls after = S (rand_calls w)
  ∧ scalars after = scalars w
  ∧ (F32.zero <=? draw)%f32 = true
  ∧ (draw <=? F32.one)%f32 = true
  ∧ ((draw == F32.zero)%f32 = true <-> rand_result = 0%Z)
  ∧ particles after = delete_first_equal chosen (particles w)
  ∧ (forall k q,
        particles w !! k = Some q ->
        field_wise_equal q chosen = true ->
        (forall k' q', k' < k -> particles w !! k' = Some q' ->
                       field_wise_equal q' chosen = false) ->
        k ≤ slot ∧ particles after = delete k (particles w))
  ∧ (nan_free chosen = true ->
     (exists k q,
         k ≤ slot ∧ particles w !! k = Some q
         ∧ field_wise_equal q chosen = true
         ∧ (forall k' q', k' < k -> particles w !! k' = Some q' ->
                          field_wise_equal q' chosen = false)
         ∧ particles after = delete k (particles w))
     ∧ S (length (particles after)) = length (particles w)
     ∧ ((forall k q, k < slot -> particles w !! k = Some q ->
                     field_wise_equal q chosen = false) ->
        particles after = delete slot (particles w)))
  ∧ (nan_free chosen = false -> particles after = particles w).
Proof.
  intros Hrand Hi Hj. cbv zeta.
  destruct (randomNumber_range rand_result Hrand) as (Hlo & Hhi & Hzero).
  set (draw := randomNumber rand_result) in *.
  set (chosen := if (draw == F32.zero)%f32 then p2 else p1).
  set (slot := if (draw == F32.zero)%f32 then j else i).
  assert (particles w !! slot = Some chosen) as Hslot
    by (subst slot chosen; by destruct (draw == F32.zero)%f32).
  assert (handleCollision rand_result p1 p2 w
          = removeParticle chosen (tick_rand w)) as ->.
  { unfold handleCollision. fold draw. subst chosen.
    by destruct (draw == F32.zero)%f32. }
  assert (forall k q,
             particles w !! k = Some q ->
             field_wise_equal q chosen = true ->
             (forall k' q', k' < k -> particles w !! k' = Some q' ->
                            field_wise_equal q' chosen = false) ->
             particles (removeParticle chosen (tick_rand w))
             = delete k (particles w)) as Hfirst.
  { intros k q Hk Hq Hbefore.
    rewrite (removeParticle_first chosen (tick_rand w) k q); [done|done|..].
    - by rewrite Particle_eqb_field_wise.
    - intros k' q' Hlt Hk'. rewrite Particle_eqb_field_wise.
      by apply Hbefore with k'. }
  split_and!;
    [|by rewrite removeParticle_scalars|done..| | | |].
  - by rewrite removeParticle_rand_calls.
  - by rewrite removeParticle_delete_first_equal.
  - intros k q Hk Hq Hbefore. split; [|by apply Hfirst with q].
    by apply (first_match_before slot chosen k q (particles w)).
  - intros Hnan.
    destruct (removeParticle_present chosen (tick_rand w))
      as (k & q & Hk & Hq & Hbefore & Hrem).
    { exists chosen. split; [by apply list_elem_of_lookup_2 with slot|].
      by rewrite Particle_eqb_field_wise, field_wise_equal_self. }
    simpl in Hk, Hbefore. rewrite Particle_eqb_field_wise in Hq.
    assert (forall k' q', k' < k -> particles w !! k' = Some q' ->
                          field_wise_equal q' chosen = false) as Hbefore'.
    { intros k' q' Hlt Hk'. rewrite <- Particle_eqb_field_wise.
      by apply Hbefore with k'. }
    split_and!.
    + exists k, q. split_and!; [|done..|by rewrite Hrem].
      by apply (first_match_before slot chosen k q (particles w)).
    + rewrite Hrem. simpl. by apply length_delete_lookup with q.
    + intros Hnone. apply Hfirst with chosen; [done| |done].
      by rewrite field_wise_equal_self.
  - intros Hnan.
    rewrite removeParticle_absent; [done|]. intros q _.
    rewrite Particle_eqb_field_wise.
    destruct (field_wise_equal q chosen) eqn:Hq; [|done].
    apply field_wise_equal_nan_free in Hq. congruence.
Qed.

(** The draws at the two ends of the range of [rand()]. *)
Example randomNumber_0 : randomNumber 0 = S754_zero false.
Proof. reflexivity. Qed.

Example randomNumber_1 : randomNumber 1 = S754_finite false 8388608 (-54).
Proof. reflexivity. Qed.

Example randomNumber_RAND_MAX : randomNumber RAND_MAX = F32.one.
Proof. reflexivity. Qed.

(** The scenario of the specification: two particles 0.01 apart. *)
Definition at_origin : Particle :=
  mkParticle (glm.mk_vec3 F32.zero F32.zero F32.zero)
    (glm.mk_vec3 F32.one F32.zero F32.zero) 0 F32.one
    (glm.mk_vec3 F32.zero F32.zero F32.zero) spawn_acceleration.

Definition nearby : Particle :=
  mkParticle (glm.mk_vec3 (F32.lit 1 100) F32.zero F32.zero)
    (glm.mk_vec3 F32.zero F32.one F32.zero) 0 F32.one
    (glm.mk_vec3 F32.zero F32.zero F32.zero) spawn_acceleration.

Definition close_pair : World := with_particles [at_origin; nearby] globals.

Lemma handleCollision_policy_witness :
  let draw := randomNumber 0 in
  let chosen := if (draw == F32.zero)%f32 then second_twin else first_twin in
  let slot := if (draw == F32.zero)%f32 then 1 else 0 in
  let after := handleCollision 0 first_twin second_twin twins in
  rand_calls after = S (rand_calls twins)
  ∧ scalars after = scalars twins
  ∧ (F32.zero <=? draw)%f32 = true
  ∧ (draw <=? F32.one)%f32 = true
  ∧ ((draw == F32.zero)%f32 = true <-> 0%Z = 0%Z)
  ∧ particles after = delete_first_equal chosen (particles twins)
  ∧ (forall k q,
        particles twins !! k = Some q ->
        field_wise_equal q chosen = true ->
        (forall k' q', k' < k -> particles twins !! k' = Some q' ->
                       field_wise_equal q' chosen = false) ->
        k ≤ slot ∧ particles after = delete k (particles twins))
  ∧ (nan_free chosen = true ->
     (exists k q,
         k ≤ slot ∧ particles twins !! k = Some q
         ∧ field_wise_equal q chosen = true
         ∧ (forall k' q', k' < k -> particles twins !! k' = Some q' ->
                          field_wise_equal q' chosen = false)
         ∧ particles after = delete k (particles twins))
     ∧ S (length (particles after)) = length (particles twins)
     ∧ ((forall k q, k < slot -> particles twins !! k = Some q ->
                     field_wise_equal q chosen = false) ->
        particles after = delete slot (particles twins)))
  ∧ (nan_free chosen = false -> particles after = particles twins).
Proof.
  apply (handleCollision_policy 0 0 1 first_twin second_twin twins).
  - unfold RAND_MAX. lia.
  - reflexivity.
  - reflexivity.
Defined.

(** With a draw of 1 the first of the pair goes, with a draw of 0 the
    second. *)
Example handleCollision_close_pair :
  particles (handleCollision 1 at_origin nearby close_pair) = [nearby]
  ∧ particles (handleCollision 0 at_origin nearby close_pair) = [at_origin].
Proof. by vm_compute. Qed.

Lemma ltb_irrefl a : (a <? a)%f32 = false.
Proof.
  unfold F32.ltb, SFltb.
  destruct a as [[]|[]| |[] m e]; simpl; try done;
    by rewrite Z.compare_refl, Pos.compare_cont_refl.
Qed.

(** C7 -- collision test: [checkCollision] answers yes exactly when the
    distance between the two positions, the square root of the sum of the
    squared coordinate differences, is strictly below
    [particleSizeValue / initialCollide] (a distance equal to the
    threshold is no collision); two particles 0.01 apart with
    [particleSizeValue = 10] and [initialCollide = 100], threshold 0.1,
    collide. *)
Theorem checkCollision_iff_closer_than_radius w p1 p2 :
  let dx := (glm.x (position p2) - glm.x (position p1))%f32 in
  let dy := (glm.y (position p2) - glm.y (position p1))%f32 in
  let dz := (glm.z (position p2) - glm.z (position p1))%f32 in
  let distance := F32.sqrt ((dx * dx + dy * dy) + dz * dz)%f32 in
  let radius := (particleSizeValue w / initialCollide w)%f32 in
  (checkCollision w p1 p2 = true <-> (distance <? radius)%f32 = true)
  ∧ (distance = radius -> checkCollision w p1 p2 = false)
  ∧ particleSizeValue globals = F32.of_Z 10
  ∧ initialCollide globals = F32.of_Z 100
  ∧ (particleSizeValue globals / initialCollide globals)%f32 = F32.lit 1 10
  ∧ glm.distance (position at_origin) (position nearby) = F32.lit 1 100
  ∧ checkCollision globals at_origin nearby = true.
Proof.
  cbv zeta. split_and!; try reflexivity.
  intros Heq. unfold checkCollision, glm.distance, glm.length, glm.dot.
  simpl. rewrite Heq. apply ltb_irrefl.
Qed.

(** C2, as stated, fails: a particle resting at the origin under the
    spawning acceleration (0, -0.05, 0) leaves a one-second step with
    vertical velocity -0.1, not the -0.05 of
    [velocity += acceleration * delta]. *)
Lemma move_doubles_the_acceleration :
  bounce at_origin = velocity at_origin
  ∧ glm.y (velocity (move F32.one at_origin))
    = S754_finite true 13421773 (-27)
  ∧ glm.y (glm.add (velocity at_origin)
             (glm.scale (acceleration at_origin) F32.one))
    = S754_finite true 13421773 (-28)
  ∧ (glm.y (velocity (move F32.one at_origin))
     == glm.y (glm.add (velocity at_origin)
                 (glm.scale (acceleration at_origin) F32.one)))%f32
    = false.
Proof. by vm_compute. Qed.

(** C2, amended -- one integration step, after the wall checks, updates
    the velocity by [velocity += acceleration * (delta * 2)] and then the
    position by [position += velocity * delta] with the velocity just
    computed (velocity, then position); it writes nothing else, and the
    wall checks leave the velocity of a particle between the walls as it
    is. *)
Theorem move_velocity_then_position dt p :
  velocity (move dt p)
  = glm.add (bounce p) (glm.scale (acceleration p) (dt * F32.two)%f32)
  ∧ position (move dt p)
    = glm.add (position p) (glm.scale (velocity (move dt p)) dt)
  ∧ (color (move dt p), shape (move dt p), lifespan (move dt p),
     acceleration (move dt p))
    = (color p, shape p, lifespan p, acceleration p)
  ∧ ((glm.x (position p) <=? leftWall)%f32 = false ->
     (glm.x (position p) >=? rightWall)%f32 = false ->
     (glm.y (position p) <=? bottomWall)%f32 = false ->
     (glm.y (position p) >=? topWall)%f32 = false ->
     bounce p = velocity p).
Proof.
  split_and!; try reflexivity.
  intros H1 H2 H3 H4. unfold bounce. by rewrite H1, H2, H3, H4.
Qed.

(** A lone particle spawned at x = 0 with velocity.x = 0.5; a frame of
    5.4 seconds takes it to x = 2.7, onto the right wall. *)
Definition heading_right : nat -> SpawnDraws :=
  fun _ => mkSpawnDraws (F32.lit 1 2) (F32.lit 1 2) F32.zero F32.zero
             F32.zero F32.zero 150 100.

Definition long_frame : FrameInput :=
  mkFrameInput [] (F32.two * rightWall)%f32 (fun _ => 1%Z).

Definition lone_on_the_wall : World :=
  frame long_frame (main (Some 1%Z) heading_right []).

Definition on_the_wall : Particle :=
  Eval vm_compute in
    match particles lone_on_the_wall with
    | p :: _ => p
    | [] => spawn_particle (heading_right 0)
    end.

Definition tenth_of_a_second : float32 := Eval vm_compute in F32.lit 1 10.

(** C9 -- boundary reflection: a particle of the store whose [position.x]
    equals [rightWall] and whose [velocity.x] is positive has a negative
    [velocity.x] after one integration step, for every frame time whose
    double is a finite binary32 value. *)
Theorem reflected_at_right_wall dt w p :
  reachable w ->
  p ∈ particles w ->
  (glm.x (position p) == rightWall)%f32 = true ->
  (F32.zero <? glm.x (velocity p))%f32 = true ->
  F32.is_finite (dt * F32.two)%f32 = true ->
  (glm.x (velocity (move dt p)) <? F32.zero)%f32 = true.
Proof.
  intros Hw Hp Hwall Hvel Hdt.
  rewrite move_velocity_x, (bounce_at_right_wall p Hwall).
  rewrite (reachable_accelerations_ok w Hw p Hp).
  by apply opp_positive_add_zero.
Qed.

Lemma reflected_at_right_wall_witness :
  (glm.x (velocity (move tenth_of_a_second on_the_wall)) <? F32.zero)%f32
  = true.
Proof.
  apply (reflected_at_right_wall tenth_of_a_second lone_on_the_wall).
  - apply reachable_frame; [|reflexivity].
    apply reachable_start. intros n [= <-]. lia.
  - replace (particles lone_on_the_wall) with [on_the_wall]
      by (vm_compute; reflexivity).
    apply list_elem_of_here.
  - vm_compute; reflexivity.
  - vm_compute; reflexivity.
  - vm_compute; reflexivity.
Defined.

(** C6 -- win latch: when a frame of a reachable world ends with a single
    particle in the store, then after that frame and after any number of
    further frames (each with its win check) the console holds exactly one
    winner report, carrying the survivor's colour, [winnerFound] is set,
    the store still holds one particle of that colour, and
    [backgroundColor] is that colour with alpha 1. *)
Theorem winner_reported_once inp inps w p :
  reachable w ->
  particles (frame inp w) = [p] ->
  let w' := MainLoop inps (frame inp w) in
  winner_reports (console w') = [color p]
  ∧ winnerFound w' = true
  ∧ backgroundColor w'
    = glm.mk_vec4 (glm.r (color p)) (glm.g (color p)) (glm.b (color p))
        F32.one
  ∧ exists p', particles w' = [p'] ∧ color p' = color p.
Proof.
  intros Hw Hp. cbv zeta.
  assert (won_by (color p) (frame inp w)) as Hwon.
  { pose proof (latch_ok_frame inp w (reachable_latch_ok w Hw)) as Hok.
    assert (winnerFound (frame inp w) = true) as Hfound.
    { unfold frame in *. rewrite winCheck_particles in Hp.
      unfold winCheck. rewrite Hp. cbn [length last].
      by rewrite decide_True by done. }
    unfold latch_ok in Hok. rewrite Hfound, Hp in Hok.
    destruct Hok as (p' & [= <-] & Hrep & Hbg).
    split_and!; [done| |done..]. by exists p. }
  apply (MainLoop_invariant (won_by (color p)) inps) in Hwon;
    [|apply won_by_frame].
  destruct Hwon as (Hfound & Hp' & Hrep & Hbg). done.
Qed.

Definition survivor : Particle :=
  Eval vm_compute in
    match particles (frame quiet_frame two_on_a_spot) with
    | p :: _ => p
    | [] => spawn_particle (same_spot 0)
    end.

Lemma winner_reported_once_witness :
  let w' := MainLoop [quiet_frame; quiet_frame]
              (frame quiet_frame two_on_a_spot) in
  winner_reports (console w') = [color survivor]
  ∧ winnerFound w' = true
  ∧ backgroundColor w'
    = glm.mk_vec4 (glm.r (color survivor)) (glm.g (color survivor))
        (glm.b (color survivor)) F32.one
  ∧ exists p', particles w' = [p'] ∧ color p' = color survivor.
Proof.
  apply (winner_reported_once quiet_frame [quiet_frame; quiet_frame]
           two_on_a_spot survivor).
  - apply two_on_a_spot_reachable.
  - vm_compute; reflexivity.
Defined.

(** The step of the sudden-death branch is the binary32 value nearest to
    0.005: 10737418 * 2^-31, within 2^-32 of 5/1000. *)
Example step_0_005_nearest :
  step_0_005 = S754_finite false 10737418 (-31)
  ∧ (2 * Z.abs (10737418 * 1000 - 5 * 2 ^ 31) <= 1000)%Z.
Proof. split; [reflexivity|]. by vm_compute. Qed.

(** C5 -- escalation: the step is the positive constant 0.005f.  In a
    frame of a reachable world in which the store size the update sees is
    at most max(NUM_PARTICLES / 10, 5) (integer division), the update adds
    the step to [particleSizeValue] and to [initialCollide]; neither value
    decreases, and each one grows as long as it is below 131072, where
    binary32 starts to round the sum back.  The condition then holds in
    every later frame, each of which adds the two steps again, with the
    same effect. *)
Theorem sudden_death_escalation inp inps inp' w :
  reachable w ->
  (Z.of_nat (length (particles (frame inp w)))
   <= Z.max (NUM_PARTICLES w ÷ 10) 5)%Z ->
  (step_0_005 = F32.lit 5 1000
   ∧ step_0_005 = S754_finite false 10737418 (-31)
   ∧ (F32.zero <? step_0_005)%f32 = true)
  ∧ (particleSizeValue (frame inp w)
     = (particleSizeValue (Input (queue inp) w) + step_0_005)%f32
     ∧ initialCollide (frame inp w) = (initialCollide w + step_0_005)%f32
     ∧ (particleSizeValue w <=? particleSizeValue (frame inp w))%f32 = true
     ∧ (initialCollide w <=? initialCollide (frame inp w))%f32 = true
     ∧ ((particleSizeValue (Input (queue inp) w) <? F32.of_Z 131072)%f32
        = true ->
        (particleSizeValue w <? particleSizeValue (frame inp w))%f32 = true)
     ∧ ((initialCollide w <? F32.of_Z 131072)%f32 = true ->
        (initialCollide w <? initialCollide (frame inp w))%f32 = true))
  ∧ let w1 := MainLoop inps (frame inp w) in
    (Z.of_nat (length (particles (frame inp' w1)))
     <= Z.max (NUM_PARTICLES w1 ÷ 10) 5)%Z
    ∧ particleSizeValue (frame inp' w1)
      = (particleSizeValue (Input (queue inp') w1) + step_0_005)%f32
    ∧ initialCollide (frame inp' w1) = (initialCollide w1 + step_0_005)%f32
    ∧ (particleSizeValue w1 <=? particleSizeValue (frame inp' w1))%f32 = true
    ∧ (initialCollide w1 <=? initialCollide (frame inp' w1))%f32 = true
    ∧ ((particleSizeValue (Input (queue inp') w1) <? F32.of_Z 131072)%f32
       = true ->
       (particleSizeValue w1 <? particleSizeValue (frame inp' w1))%f32 = true)
    ∧ ((initialCollide w1 <? F32.of_Z 131072)%f32 = true ->
       (initialCollide w1 <? initialCollide (frame inp' w1))%f32 = true).
Proof.
  intros Hw Hsize.
  assert (forall inp0 w0,
             sizes_good w0 ->
             (- 2 ^ 31 <= NUM_PARTICLES w0 < 2 ^ 31)%Z ->
             (Z.of_nat (length (particles (frame inp0 w0)))
              <= Z.max (NUM_PARTICLES w0 ÷ 10) 5)%Z ->
             particleSizeValue (frame inp0 w0)
             = (particleSizeValue (Input (queue inp0) w0) + step_0_005)%f32
             ∧ initialCollide (frame inp0 w0)
               = (initialCollide w0 + step_0_005)%f32
             ∧ (particleSizeValue w0
                <=? particleSizeValue (frame inp0 w0))%f32 = true
             ∧ (initialCollide w0
                <=? initialCollide (frame inp0 w0))%f32 = true
             ∧ ((particleSizeValue (Input (queue inp0) w0)
                 <? F32.of_Z 131072)%f32 = true ->
                (particleSizeValue w0
                 <? particleSizeValue (frame inp0 w0))%f32 = true)
             ∧ ((initialCollide w0 <? F32.of_Z 131072)%f32 = true ->
                (initialCollide w0
                 <? initialCollide (frame inp0 w0))%f32 = true)) as Hframe.
  { intros inp0 w0 Hgood Hint Hsz.
    destruct (frame_sizes inp0 w0) as [Hps Hic].
    rewrite (escalating_below_threshold _ _ Hint Hsz) in Hps, Hic.
    destruct (frame_sizes_good inp0 w0 Hgood) as (_ & ? & ?).
    destruct (Input_sizes (queue inp0) w0 Hgood) as ([Hps' _] & Hle & _).
    destruct Hgood as [Hps0 Hic0].
    split_and!; [done..| |].
    - intros Hbelow. rewrite Hps.
      apply leb_ltb_trans with (particleSizeValue (Input (queue inp0) w0));
        [done|done| |done|by apply add_step_gt].
      by apply add_pos_ge.
    - intros Hbelow. rewrite Hic. by apply add_step_gt. }
  pose proof (reachable_sizes_good w Hw) as Hgood.
  pose proof (reachable_int w Hw) as Hint.
  split; [done|].
  split; [by apply Hframe|]. cbv zeta.
  assert (sizes_good (MainLoop inps (frame inp w))
          ∧ NUM_PARTICLES (MainLoop inps (frame inp w)) = NUM_PARTICLES w
          ∧ length (particles (MainLoop inps (frame inp w)))
            ≤ length (particles (frame inp w))) as (Hgood1 & Hnum1 & Hlen1).
  { apply (MainLoop_invariant
             (fun w' => sizes_good w'
                        ∧ NUM_PARTICLES w' = NUM_PARTICLES w
                        ∧ length (particles w')
                          ≤ length (particles (frame inp w)))).
    - intros inp0 w0 (? & ? & ?). split_and!.
      + by apply frame_sizes_good.
      + by rewrite frame_NUM_PARTICLES.
      + etrans; [apply frame_shrinks|done].
    - split_and!; [by apply frame_sizes_good|apply frame_NUM_PARTICLES|done]. }
  set (w1 := MainLoop inps (frame inp w)) in *.
  assert (Z.of_nat (length (particles (frame inp' w1)))
          <= Z.max (NUM_PARTICLES w1 ÷ 10) 5)%Z as Hsize1.
  { pose proof (frame_shrinks inp' w1). rewrite Hnum1. lia. }
  split; [done|]. apply Hframe; [done|by rewrite Hnum1|done].
Qed.

Lemma sudden_death_escalation_witness :
  (step_0_005 = F32.lit 5 1000
   ∧ step_0_005 = S754_finite false 10737418 (-31)
   ∧ (F32.zero <? step_0_005)%f32 = true)
  ∧ (particleSizeValue (frame quiet_frame two_on_a_spot)
     = (particleSizeValue (Input (queue quiet_frame) two_on_a_spot)
        + step_0_005)%f32
     ∧ initialCollide (frame quiet_frame two_on_a_spot)
       = (initialCollide two_on_a_spot + step_0_005)%f32
     ∧ (particleSizeValue two_on_a_spot
        <=? particleSizeValue (frame quiet_frame two_on_a_spot))%f32 = true
     ∧ (initialCollide two_on_a_spot
        <=? initialCollide (frame quiet_frame two_on_a_spot))%f32 = true
     ∧ ((particleSizeValue (Input (queue quiet_frame) two_on_a_spot)
         <? F32.of_Z 131072)%f32 = true ->
        (particleSizeValue two_on_a_spot
         <? particleSizeValue (frame quiet_frame two_on_a_spot))%f32 = true)
     ∧ ((initialCollide two_on_a_spot <? F32.of_Z 131072)%f32 = true ->
        (initialCollide two_on_a_spot
         <? initialCollide (frame quiet_frame two_on_a_spot))%f32 = true))
  ∧ let w1 := MainLoop [quiet_frame] (frame quiet_frame two_on_a_spot) in
    (Z.of_nat (length (particles (frame quiet_frame w1)))
     <= Z.max (NUM_PARTICLES w1 ÷ 10) 5)%Z
    ∧ particleSizeValue (frame quiet_frame w1)
      = (particleSizeValue (Input (queue quiet_frame) w1) + step_0_005)%f32
    ∧ initialCollide (frame quiet_frame w1)
      = (initialCollide w1 + step_0_005)%f32
    ∧ (particleSizeValue w1
       <=? particleSizeValue (frame quiet_frame w1))%f32 = true
    ∧ (initialCollide w1 <=? initialCollide (frame quiet_frame w1))%f32
      = true
    ∧ ((particleSizeValue (Input (queue quiet_frame) w1)
        <? F32.of_Z 131072)%f32 = true ->
       (particleSizeValue w1
        <? particleSizeValue (frame quiet_frame w1))%f32 = true)
    ∧ ((initialCollide w1 <? F32.of_Z 131072)%f32 = true ->
       (initialCollide w1 <? initialCollide (frame quiet_frame w1))%f32
       = true).
Proof.
  apply (sudden_death_escalation quiet_frame [quiet_frame] quiet_frame
           two_on_a_spot).
  - apply two_on_a_spot_reachable.
  - vm_compute. discriminate.
Defined.

(** * Further properties of the engine *)

(** ** The collision pass *)

Lemma removeParticle_length_ge ptr w :
  length (particles w) ≤ S (length (particles (removeParticle ptr w))).
Proof.
  unfold removeParticle.
  destruct (list_find _ _) as [[i q]|] eqn:Hfind; simpl; [|lia].
  apply list_find_Some in Hfind as (Hi & _ & _).
  rewrite <- (length_delete_lookup _ _ _ Hi). lia.
Qed.

Lemma handleCollision_length_ge rnd p1 p2 w :
  length (particles w) ≤ S (length (particles (handleCollision rnd p1 p2 w))).
Proof.
  unfold handleCollision.
  destruct (F32.eqb _ _); apply (removeParticle_length_ge _ (tick_rand w)).
Qed.

Lemma collide_inner_nonempty fuel draws i j w :
  1 ≤ j -> 1 ≤ length (particles w) ->
  1 ≤ length (particles (collide_inner fuel draws i j w)).
Proof.
  revert j w. induction fuel as [|fuel IH]; intros j w Hj Hw; simpl; [done|].
  case_decide as Hlt; [|done].
  destruct (particles w !! i) as [pi|]; [|done].
  destruct (particles w !! j) as [pj|]; [|done].
  apply IH; [lia|].
  destruct (checkCollision w pi pj); [|done].
  pose proof (handleCollision_length_ge (draws (rand_calls w)) pi pj w). lia.
Qed.

Lemma collide_outer_nonempty fuel draws i w :
  1 ≤ length (particles w) ->
  1 ≤ length (particles (collide_outer fuel draws i w)).
Proof.
  revert i w. induction fuel as [|fuel IH]; intros i w Hw; simpl; [done|].
  case_decide; [|done].
  apply IH, collide_inner_nonempty; [lia|done].
Qed.

Lemma frame_nonempty inp w :
  1 ≤ length (particles w) -> 1 ≤ length (particles (frame inp w)).
Proof.
  intros Hw. rewrite frame_particles, length_fmap.
  apply collide_outer_nonempty. by rewrite Input_particles.
Qed.

(** X1 -- the store never runs empty: a frame that starts with at least
    one particle ends with at least one, and so does any run of the main
    loop; the collision pass needs two particles to remove one. *)
Theorem store_never_runs_empty inp inps w :
  particles w <> [] ->
  particles (frame inp w) <> [] ∧ particles (MainLoop inps w) <> [].
Proof.
  intros Hw.
  assert (forall v, particles v <> [] <-> 1 ≤ length (particles v)) as Hne.
  { intros v. destruct (particles v); simpl; split; (done || lia). }
  split.
  - apply Hne, frame_nonempty, Hne, Hw.
  - apply (MainLoop_invariant (fun v => particles v <> [])); [|done].
    intros inp' v Hv. apply Hne, frame_nonempty, Hne, Hv.
Qed.

Lemma store_never_runs_empty_witness :
  particles (frame quiet_frame two_on_a_spot) <> []
  ∧ particles (MainLoop [quiet_frame; quiet_frame] two_on_a_spot) <> [].
Proof.
  apply (store_never_runs_empty quiet_frame [quiet_frame; quiet_frame]
           two_on_a_spot).
  by vm_compute.
Defined.

Lemma collide_inner_quiet fuel draws i j w :
  i < j ->
  (forall i j p q, i < j -> particles w !! i = Some p ->
                   particles w !! j = Some q -> checkCollision w p q = false) ->
  collide_inner fuel draws i j w = w.
Proof.
  revert j. induction fuel as [|fuel IH]; intros j Hij Hquiet; simpl; [done|].
  case_decide; [|done].
  destruct (particles w !! i) as [pi|] eqn:Hi; [|done].
  destruct (particles w !! j) as [pj|] eqn:Hj; [|done].
  rewrite (Hquiet i j pi pj Hij Hi Hj). apply IH; [lia|done].
Qed.

Lemma collide_outer_quiet fuel draws i w :
  length (particles w) ≤ fuel + i ->
  (forall i j p q, i < j -> particles w !! i = Some p ->
                   particles w !! j = Some q -> checkCollision w p q = false) ->
  collide_outer fuel draws i w = w.
Proof.
  revert i. induction fuel as [|fuel IH]; intros i Hfuel Hquiet; simpl;
    [done|].
  case_decide; [|done].
  rewrite collide_inner_quiet by (done || lia). apply IH; [lia|done].
Qed.

Lemma updateParticles_rand_calls dt draws w :
  rand_calls (updateParticles dt draws w) = rand_calls (collisions draws w).
Proof.
  unfold updateParticles.
  injection (sudden_death_rest
               (update_vertexData (movement dt (collisions draws w))))
    as _ _ _ _ _ ->.
  injection (update_vertexData_rest (movement dt (collisions draws w)))
    as _ _ _ _ _ _ _ _ ->.
  apply (movement_loop dt [] (particles (collisions draws w))). done.
Qed.

Lemma frame_rand_calls inp w :
  rand_calls (frame inp w)
  = rand_calls (collisions (draws inp) (Input (queue inp) w)).
Proof.
  unfold frame.
  injection (winCheck_rest (updateParticles (deltaTime inp) (draws inp)
                              (Input (queue inp) w)))
    as _ _ _ _ _ _ ->.
  apply updateParticles_rand_calls.
Qed.

(** X2 -- a pass without a colliding pair changes nothing: when no pair
    [i < j] of the store passes [checkCollision], the collision pass
    returns the world as it found it, [rand()] is not called, and
    [updateParticles] moves every particle of the store. *)
Theorem quiet_pass_changes_nothing dt draws w :
  (forall i j p q, i < j -> particles w !! i = Some p ->
                   particles w !! j = Some q -> checkCollision w p q = false) ->
  collisions draws w = w
  ∧ particles (updateParticles dt draws w) = move dt <$> particles w
  ∧ rand_calls (updateParticles dt draws w) = rand_calls w.
Proof.
  intros Hquiet.
  assert (collisions draws w = w) as Hpass
    by (apply collide_outer_quiet; [lia|done]).
  by rewrite updateParticles_particles, updateParticles_rand_calls, Hpass.
Qed.

(** Two particles a unit apart: farther than the radius of 0.1. *)
Definition far_away : Particle :=
  mkParticle (glm.mk_vec3 F32.one F32.zero F32.zero)
    (glm.mk_vec3 F32.zero F32.one F32.zero) 0 F32.one
    (glm.mk_vec3 F32.zero F32.zero F32.zero) spawn_acceleration.

Definition distant_pair : World := with_particles [at_origin; far_away] globals.

Lemma quiet_pass_changes_nothing_witness :
  collisions (fun _ => 1%Z) distant_pair = distant_pair
  ∧ particles (updateParticles F32.one (fun _ => 1%Z) distant_pair)
    = move F32.one <$> particles distant_pair
  ∧ rand_calls (updateParticles F32.one (fun _ => 1%Z) distant_pair)
    = rand_calls distant_pair.
Proof.
  apply (quiet_pass_changes_nothing F32.one (fun _ => 1%Z) distant_pair).
  intros [|[|i]] [|[|[|j]]] p q Hij Hi Hj; try lia; try done.
  injection Hi as <-. injection Hj as <-. by vm_compute.
Defined.

(** ** One elimination per collision *)

Lemma handleCollision_counts rnd p1 p2 w :
  p1 ∈ particles w -> p2 ∈ particles w ->
  Particle_eqb p1 p1 = true -> Particle_eqb p2 p2 = true ->
  S (length (particles (handleCollision rnd p1 p2 w))) = length (particles w)
  ∧ rand_calls (handleCollision rnd p1 p2 w) = S (rand_calls w).
Proof.
  intros Hp1 Hp2 Hs1 Hs2. unfold handleCollision.
  assert (forall p, p ∈ particles w -> Particle_eqb p p = true ->
            S (length (particles (removeParticle p (tick_rand w))))
            = length (particles w)) as Hone.
  { intros p Hp Hs.
    destruct (removeParticle_present p (tick_rand w)) as (i & q & Hi & _ & _ & ->);
      [by exists p|].
    simpl in *. by apply length_delete_lookup with q. }
  destruct (F32.eqb _ _); rewrite removeParticle_rand_calls;
    (split; [by apply Hone|done]).
Qed.

Definition no_nan (w : World) : Prop :=
  forall p, p ∈ particles w -> Particle_eqb p p = true.

Lemma no_nan_sublist w w' :
  particles w' `sublist_of` particles w -> no_nan w -> no_nan w'.
Proof. intros Hsub Hw p Hp. apply Hw. by eapply elem_of_sublist. Qed.

Lemma collide_inner_counts fuel draws i j w :
  no_nan w ->
  length (particles (collide_inner fuel draws i j w))
  + rand_calls (collide_inner fuel draws i j w)
  = length (particles w) + rand_calls w.
Proof.
  revert j w. induction fuel as [|fuel IH]; intros j w Hw; simpl; [done|].
  case_decide; [|done].
  destruct (particles w !! i) as [pi|] eqn:Hi; [|done].
  destruct (particles w !! j) as [pj|] eqn:Hj; [|done].
  destruct (checkCollision w pi pj); [|by apply IH].
  apply list_elem_of_lookup_2 in Hi, Hj.
  destruct (handleCollision_counts (draws (rand_calls w)) pi pj w)
    as [Hlen Hrc]; [done|done|by apply Hw|by apply Hw|].
  rewrite IH; [lia|].
  eapply no_nan_sublist; [apply handleCollision_sublist|done].
Qed.

Lemma collide_outer_counts fuel draws i w :
  no_nan w ->
  length (particles (collide_outer fuel draws i w))
  + rand_calls (collide_outer fuel draws i w)
  = length (particles w) + rand_calls w.
Proof.
  revert i w. induction fuel as [|fuel IH]; intros i w Hw; simpl; [done|].
  case_decide; [|done].
  rewrite IH, collide_inner_counts; [done..|].
  eapply no_nan_sublist; [apply collide_inner_sublist|done].
Qed.

(** X4 -- one elimination per collision: when no particle of the store has
    a not-a-number in its position or colour (each compares equal to
    itself), a frame removes exactly as many particles as it makes calls
    of [rand()], one per pair found colliding. *)
Theorem one_elimination_per_collision inp w :
  (forall p, p ∈ particles w -> Particle_eqb p p = true) ->
  length (particles (frame inp w)) + rand_calls (frame inp w)
  = length (particles w) + rand_calls w.
Proof.
  intros Hw. rewrite frame_particles, length_fmap, frame_rand_calls.
  unfold collisions. rewrite collide_outer_counts.
  - injection (Input_rest (queue inp) w) as _ _ _ _ _ -> ->. done.
  - intros p. rewrite Input_particles. apply Hw.
Qed.

Lemma one_elimination_per_collision_witness :
  length (particles (frame quiet_frame two_on_a_spot))
  + rand_calls (frame quiet_frame two_on_a_spot)
  = length (particles two_on_a_spot) + rand_calls two_on_a_spot.
Proof.
  apply (one_elimination_per_collision quiet_frame two_on_a_spot).
  intros p Hp.
  replace (particles two_on_a_spot)
    with [spawn_particle (same_spot 0); spawn_particle (same_spot 1)] in Hp
    by reflexivity.
  apply elem_of_cons in Hp as [->|Hp]; [by vm_compute|].
  apply elem_of_cons in Hp as [->|Hp]; [by vm_compute|].
  by apply elem_of_nil in Hp.
Defined.

(** ** Where the particles of a frame come from *)

Lemma move_keeps p dt :
  color (move dt p) = color p ∧ shape (move dt p) = shape p
  ∧ lifespan (move dt p) = lifespan p
  ∧ acceleration (move dt p) = acceleration p.
Proof. done. Qed.

(** X3 -- a frame neither creates, reorders nor recolours particles: the
    store after a frame is the store before it with some particles left
    out, in the same order, each survivor moved once; every particle of
    the new store has the colour, shape, lifespan and acceleration of a
    particle of the old one. *)
Theorem survivors_are_moved_originals inp w :
  exists kept,
    kept `sublist_of` particles w
    ∧ particles (frame inp w) = move (deltaTime inp) <$> kept
    ∧ forall p, p ∈ particles (frame inp w) ->
        exists q, q ∈ particles w ∧ p = move (deltaTime inp) q
                  ∧ color p = color q ∧ shape p = shape q
                  ∧ lifespan p = lifespan q
                  ∧ acceleration p = acceleration q.
Proof.
  exists (particles (collisions (draws inp) (Input (queue inp) w))).
  assert (particles (collisions (draws inp) (Input (queue inp) w))
            `sublist_of` particles w) as Hsub.
  { etrans; [apply collisions_sublist|]. by rewrite Input_particles. }
  split_and!; [done|apply frame_particles|].
  intros p. rewrite frame_particles, list_elem_of_fmap.
  intros (q & -> & Hq). exists q.
  split; [by eapply elem_of_sublist|]. split; [done|apply move_keeps].
Qed.

(** ** Leaving the main loop *)

Definition quits (e : Event) : bool :=
  match e with SDL_QUIT | KeyDown_ESCAPE => true | _ => false end.

Lemma Input_gQuit queue w :
  gQuit (Input queue w) = gQuit w || existsb quits queue.
Proof.
  unfold Input. revert w.
  induction queue as [|e queue IH]; intros w; cbn [foldl existsb].
  - by rewrite orb_false_r.
  - rewrite IH. destruct e; simpl; by rewrite ?orb_true_r.
Qed.

Lemma frame_gQuit inp w :
  gQuit (frame inp w) = gQuit w || existsb quits (queue inp).
Proof.
  unfold frame.
  injection (winCheck_rest (updateParticles (deltaTime inp) (draws inp)
                              (Input (queue inp) w)))
    as _ _ _ _ _ -> _.
  unfold updateParticles.
  injection (sudden_death_rest
               (update_vertexData (movement (deltaTime inp)
                  (collisions (draws inp) (Input (queue inp) w)))))
    as _ _ _ -> _ _.
  injection (update_vertexData_rest
               (movement (deltaTime inp)
                  (collisions (draws inp) (Input (queue inp) w))))
    as _ _ _ _ _ _ -> _ _.
  destruct (scalars_win _ _ (movement_scalars (deltaTime inp)
              (collisions (draws inp) (Input (queue inp) w))))
    as (_ & _ & _ & ->).
  destruct (scalars_win _ _ (collisions_scalars (draws inp)
                               (Input (queue inp) w)))
    as (_ & _ & _ & ->).
  apply Input_gQuit.
Qed.

Lemma MainLoop_quit inps w : gQuit w = true -> MainLoop inps w = w.
Proof. intros Hq. destruct inps; simpl; by rewrite ?Hq. Qed.

(** X6 -- leaving the loop: a quit event or an escape key in the queue of
    a frame lets that frame run to its end (update and win check
    included) and is the last frame the main loop runs, whatever input
    follows; the quit flag, once set, is never cleared, and the loop over
    two runs of frames is the loop over the first and then the second. *)
Theorem quit_ends_the_loop_after_the_frame inp inps inps' w :
  gQuit w = false ->
  existsb quits (queue inp) = true ->
  MainLoop (inp :: inps) w = frame inp w
  ∧ gQuit (frame inp w) = true
  ∧ gQuit (MainLoop (inp :: inps) w) = true
  ∧ MainLoop (inps ++ inps') w = MainLoop inps' (MainLoop inps w).
Proof.
  intros Hrun Hquit.
  assert (gQuit (frame inp w) = true) as Hq
    by (by rewrite frame_gQuit, Hquit, orb_true_r).
  cbn [MainLoop]. rewrite Hrun, (MainLoop_quit inps _ Hq).
  split_and!; [done..|].
  clear. revert w. induction inps as [|i inps IH]; intros w; [done|].
  cbn [MainLoop app]. destruct (gQuit w) eqn:Hw; [|apply IH].
  by rewrite MainLoop_quit.
Qed.

Definition closing_frame : FrameInput :=
  mkFrameInput [KeyDown_SPACE; SDL_QUIT] F32.zero (fun _ => 1%Z).

Lemma quit_ends_the_loop_after_the_frame_witness :
  MainLoop (closing_frame :: [quiet_frame]) two_on_a_spot
  = frame closing_frame two_on_a_spot
  ∧ gQuit (frame closing_frame two_on_a_spot) = true
  ∧ gQuit (MainLoop (closing_frame :: [quiet_frame]) two_on_a_spot) = true
  ∧ MainLoop ([quiet_frame] ++ [quiet_frame]) two_on_a_spot
    = MainLoop [quiet_frame] (MainLoop [quiet_frame] two_on_a_spot).
Proof.
  apply (quit_ends_the_loop_after_the_frame closing_frame [quiet_frame]
           [quiet_frame] two_on_a_spot); reflexivity.
Defined.

(** ** The winner flag *)

Definition black : glm.vec4 := glm.mk_vec4 F32.zero F32.zero F32.zero F32.one.

(** Until a winner is declared the background keeps its initial colour. *)
Definition background_ok (w : World) : Prop :=
  winnerFound w = false -> backgroundColor w = black.

Lemma background_ok_frame inp w : background_ok w -> background_ok (frame inp w).
Proof.
  unfold background_ok, frame. intros Hw.
  set (w2 := updateParticles _ _ _).
  assert (backgroundColor w2 = backgroundColor w
          ∧ winnerFound w2 = winnerFound w) as [Hbg Hfound].
  { subst w2.
    injection (updateParticles_win (deltaTime inp) (draws inp)
                 (Input (queue inp) w)) as -> -> _.
    by injection (Input_rest (queue inp) w) as _ _ _ -> -> _ _. }
  unfold winCheck. case_decide; [|by rewrite Hbg, Hfound].
  destruct (last (particles w2)); [done|by rewrite Hbg, Hfound].
Qed.

Lemma reachable_background_ok w : reachable w -> background_ok w.
Proof.
  induction 1 as [arg spawn _|inp w _ IH _].
  - change (main arg spawn []) with (start arg spawn). by rewrite start_spec.
  - by apply background_ok_frame.
Qed.

(** X7 -- the winner flag: in every reachable world the console holds at
    most one winner report; [winnerFound] is set only while exactly one
    particle is left; and while it is not set nothing has been reported
    and the background is still the initial opaque black. *)
Theorem winner_only_when_alone w :
  reachable w ->
  length (winner_reports (console w)) ≤ 1
  ∧ (winnerFound w = true -> length (particles w) = 1)
  ∧ (2 ≤ length (particles w) -> winnerFound w = false)
  ∧ (winnerFound w = false ->
     winner_reports (console w) = [] ∧ backgroundColor w = black).
Proof.
  intros Hw.
  pose proof (reachable_latch_ok w Hw) as Hlatch.
  pose proof (reachable_background_ok w Hw) as Hbg.
  unfold latch_ok, background_ok in *.
  destruct (winnerFound w).
  - destruct Hlatch as (p & -> & -> & _). split_and!; simpl; try done; lia.
  - rewrite Hlatch. split_and!; simpl; try done; [lia|]. by split; [|apply Hbg].
Qed.

Lemma winner_only_when_alone_witness :
  length (winner_reports (console (frame quiet_frame two_on_a_spot))) ≤ 1
  ∧ (winnerFound (frame quiet_frame two_on_a_spot) = true ->
     length (particles (frame quiet_frame two_on_a_spot)) = 1)
  ∧ (2 ≤ length (particles (frame quiet_frame two_on_a_spot)) ->
     winnerFound (frame quiet_frame two_on_a_spot) = false)
  ∧ (winnerFound (frame quiet_frame two_on_a_spot) = false ->
     winner_reports (console (frame quiet_frame two_on_a_spot)) = []
     ∧ backgroundColor (frame quiet_frame two_on_a_spot) = black).
Proof.
  apply (winner_only_when_alone (frame quiet_frame two_on_a_spot)).
  apply reachable_frame; [apply two_on_a_spot_reachable|reflexivity].
Defined.

(** ** Above the sudden-death threshold *)

Lemma not_escalating_above_threshold size num :
  (0 <= num < 2 ^ 31)%Z ->
  (Z.max (num ÷ 10) 5 < Z.of_nat size)%Z ->
  escalating size num = false.
Proof.
  intros Hnum Hsize. unfold escalating, size_t_of_int.
  rewrite Z.quot_div_nonneg in * by lia.
  assert (0 <= num `div` 10 <= num)%Z
    by (split; [apply Z.div_pos|apply Z.div_le_upper_bound]; lia).
  rewrite Z.mod_small by lia.
  apply orb_false_iff. split; apply Z.leb_gt; lia.
Qed.

(** X8 -- no escalation above the threshold: in a frame of a reachable
    world that ends with more particles than max(NUM_PARTICLES / 10, 5),
    [updateParticles] leaves [particleSizeValue] and [initialCollide]
    alone; only space keys in the queue change the particle size. *)
Theorem no_escalation_above_threshold inp w :
  reachable w ->
  (Z.max (NUM_PARTICLES w ÷ 10) 5
   < Z.of_nat (length (particles (frame inp w))))%Z ->
  particleSizeValue (frame inp w) = particleSizeValue (Input (queue inp) w)
  ∧ initialCollide (frame inp w) = initialCollide w
  ∧ (existsb (fun e => match e with KeyDown_SPACE => true | _ => false end)
       (queue inp) = false ->
     particleSizeValue (frame inp w) = particleSizeValue w).
Proof.
  intros Hw Hsize.
  destruct (reachable_sizes_ok w Hw) as [_ Hroom].
  pose proof (reachable_int w Hw) as Hint.
  pose proof (frame_shrinks inp w) as Hle.
  destruct (frame_sizes inp w) as [Hps Hic].
  rewrite not_escalating_above_threshold in Hps, Hic by lia.
  split_and!; [done..|].
  intros Hkeys. rewrite Hps. clear -Hkeys.
  unfold Input. revert w.
  induction (queue inp) as [|e q IH]; intros w; [done|].
  cbn [foldl existsb] in *. apply orb_false_iff in Hkeys as [He Hq].
  rewrite IH by done. by destruct e.
Qed.

(** Six particles spawned a quarter of a unit apart, at rest. *)
Definition spread_out : nat -> SpawnDraws :=
  fun i => mkSpawnDraws (F32.lit (Z.of_nat i) 8) (F32.lit 1 2) F32.zero
             F32.zero F32.zero F32.zero 100 100.

Definition six_apart : World := main (Some 6%Z) spread_out [].

Lemma no_escalation_above_threshold_witness :
  particleSizeValue (frame quiet_frame six_apart)
  = particleSizeValue (Input (queue quiet_frame) six_apart)
  ∧ initialCollide (frame quiet_frame six_apart) = initialCollide six_apart
  ∧ (existsb (fun e => match e with KeyDown_SPACE => true | _ => false end)
       (queue quiet_frame) = false ->
     particleSizeValue (frame quiet_frame six_apart)
     = particleSizeValue six_apart).
Proof.
  apply (no_escalation_above_threshold quiet_frame six_apart).
  - apply reachable_start. intros n [= <-]. lia.
  - by vm_compute.
Defined.

(** ** A simulation without particles *)

Lemma frame_empty inp w : particles w = [] -> particles (frame inp w) = [].
Proof.
  intros Hw. pose proof (frame_shrinks inp w) as Hle. rewrite Hw in Hle.
  destruct (particles (frame inp w)); [done|simpl in Hle; lia].
Qed.

(** X14 -- no particles, no winner: a simulation started with a particle
    count of zero or less has an empty store for ever; no frame of it
    declares a winner, reports one or changes the background, although
    every frame still runs the sudden-death branch. *)
Theorem empty_simulation_never_wins n spawn inps inp :
  (- 2 ^ 31 <= n <= 0)%Z ->
  let w := main (Some n) spawn inps in
  particles w = []
  ∧ winnerFound w = false
  ∧ winner_reports (console w) = []
  ∧ backgroundColor w = black
  ∧ initialCollide (frame inp w) = (initialCollide w + step_0_005)%f32.
Proof.
  intros Hn. cbv zeta.
  assert (reachable (main (Some n) spawn inps)) as Hreach.
  { apply main_reachable. intros ? [= <-]. lia. }
  assert (particles (main (Some n) spawn inps) = []) as Hempty.
  { change (main (Some n) spawn inps)
      with (MainLoop inps (start (Some n) spawn)).
    apply (MainLoop_invariant (fun v => particles v = []));
      [apply frame_empty|].
    rewrite start_spec. cbn [particles].
    change (default 100%Z (Some n)) with n.
    replace (Z.to_nat n) with 0 by lia. reflexivity. }
  pose proof (reachable_latch_ok _ Hreach) as Hlatch.
  pose proof (reachable_background_ok _ Hreach) as Hbg.
  unfold latch_ok, background_ok in *.
  destruct (winnerFound (main (Some n) spawn inps)).
  { destruct Hlatch as (p & Hp & _). by rewrite Hempty in Hp. }
  split_and!; [done..|by apply Hbg|].
  destruct (frame_sizes inp (main (Some n) spawn inps)) as [_ ->].
  rewrite (frame_empty _ _ Hempty).
  replace (escalating _ _) with true; [done|].
  unfold escalating. symmetry. apply orb_true_r.
Qed.

Lemma empty_simulation_never_wins_witness :
  let w := main (Some 0%Z) same_spot [quiet_frame; quiet_frame] in
  particles w = []
  ∧ winnerFound w = false
  ∧ winner_reports (console w) = []
  ∧ backgroundColor w = black
  ∧ initialCollide (frame quiet_frame w) = (initialCollide w + step_0_005)%f32.
Proof.
  apply (empty_simulation_never_wins 0 same_spot
           [quiet_frame; quiet_frame] quiet_frame).
  lia.
Defined.

(** ** Symmetry of the collision test *)

Lemma binary_round_aux_opp s m e l :
  binary_round_aux F32.prec F32.emax (negb s) m e l
  = SFopp (binary_round_aux F32.prec F32.emax s m e l).
Proof.
  unfold binary_round_aux.
  destruct (shr_fexp _ _ m e l) as [mrs' e'].
  destruct (shr_fexp _ _ _ e' loc_Exact) as [mrs'' e''].
  destruct (shr_m mrs''); [done| |done].
  by destruct (Z.leb _ _).
Qed.

Lemma binary_normalize_opp z e :
  binary_normalize F32.prec F32.emax (- z) e false
  = SFopp (binary_normalize F32.prec F32.emax z e false)
  ∨ binary_normalize F32.prec F32.emax (- z) e false
    = binary_normalize F32.prec F32.emax z e false.
Proof.
  destruct z as [|m|m]; [by right|left..].
  - change (- Z.pos m)%Z with (Z.neg m). cbn [binary_normalize].
    unfold binary_round. destruct (shl_align _ _ _) as [mz ez].
    apply (binary_round_aux_opp false).
  - change (- Z.neg m)%Z with (Z.pos m). cbn [binary_normalize].
    unfold binary_round. destruct (shl_align _ _ _) as [mz ez].
    rewrite (binary_round_aux_opp false).
    by destruct (binary_round_aux _ _ _ _ _ _) as [[]|[]| |[] ? ?].
Qed.

(** Swapping the operands of a subtraction flips the sign of the result,
    or leaves a zero or a not-a-number as it is. *)
Lemma sub_swap a b :
  (b - a)%f32 = (- (a - b))%f32 ∨ (b - a)%f32 = (a - b)%f32.
Proof.
  unfold F32.sub, F32.opp.
  destruct a as [sa|sa| |sa ma ea], b as [sb|sb| |sb mb eb];
    try (destruct sa, sb; simpl; auto; fail);
    try (destruct sa; simpl; auto; fail);
    try (destruct sb; simpl; auto; fail);
    try (simpl; auto; fail).
  cbn [SFsub]. rewrite (Z.min_comm eb ea).
  set (A := cond_Zopp sa _). set (B := cond_Zopp sb _).
  replace (B - A)%Z with (- (A - B))%Z by lia.
  apply binary_normalize_opp.
Qed.

Lemma mul_opp_opp a : (- a * - a)%f32 = (a * a)%f32.
Proof. by destruct a as [[]|[]| |[] m e]. Qed.

Lemma square_sub_swap a b :
  ((b - a) * (b - a))%f32 = ((a - b) * (a - b))%f32.
Proof.
  destruct (sub_swap a b) as [-> | ->]; [apply mul_opp_opp|done].
Qed.

(** X5 -- the collision test is symmetric: the binary32 distance between
    two positions is the same in both directions, bit for bit, so
    [checkCollision] gives the same answer for a pair in either order. *)
Theorem checkCollision_symmetric w p q :
  glm.distance (position p) (position q)
  = glm.distance (position q) (position p)
  ∧ checkCollision w p q = checkCollision w q p.
Proof.
  assert (glm.distance (position p) (position q)
          = glm.distance (position q) (position p)) as Hd.
  { unfold glm.distance, glm.length, glm.dot, glm.sub. cbn [glm.x glm.y glm.z].
    by rewrite !(square_sub_swap (_ (position p)) (_ (position q))). }
  split; [done|]. unfold checkCollision. by rewrite Hd.
Qed.

(** ** Horizontal speed *)

Lemma add_zero_times a t :
  F32.is_nan a = false -> F32.is_finite t = true ->
  ((a + F32.zero * t) == a)%f32 = true.
Proof.
  intros Ha Ht.
  destruct t as [st|st| |st mt et]; try discriminate Ht;
    destruct a as [sa|sa| |sa ma ea]; try discriminate Ha;
    try (by destruct sa, st);
    unfold F32.eqb, SFeqb; cbn;
    rewrite Z.compare_refl, Pos.compare_cont_refl; by destruct sa.
Qed.

Lemma bounce_x p :
  glm.x (bounce p)
  = if (glm.x (position p) <=? leftWall)%f32
       || (glm.x (position p) >=? rightWall)%f32
    then (- glm.x (velocity p))%f32 else glm.x (velocity p).
Proof. unfold bounce. by destruct (_ || _), (_ || _). Qed.

(** X9 -- horizontal speed: for a particle of the store, whose
    acceleration has no horizontal part, an integration step leaves the
    magnitude of [velocity.x] as it is; it only reverses its sign, and it
    does so whenever [position.x] is at or beyond a side wall, whichever
    way the particle is moving, so a particle outside a wall that was
    coming back is sent away again. *)
Theorem horizontal_speed_is_kept dt w p :
  reachable w ->
  p ∈ particles w ->
  F32.is_finite (dt * F32.two)%f32 = true ->
  F32.is_nan (glm.x (velocity p)) = false ->
  (glm.x (velocity (move dt p))
   == (if (glm.x (position p) <=? leftWall)%f32
          || (glm.x (position p) >=? rightWall)%f32
       then - glm.x (velocity p) else glm.x (velocity p)))%f32 = true.
Proof.
  intros Hw Hp Hdt Hnan.
  rewrite move_velocity_x, bounce_x, (reachable_accelerations_ok w Hw p Hp).
  apply add_zero_times; [|done].
  destruct (_ || _); [|done]. by destruct (glm.x (velocity p)).
Qed.

Lemma horizontal_speed_is_kept_witness :
  (glm.x (velocity (move tenth_of_a_second on_the_wall))
   == (if (glm.x (position on_the_wall) <=? leftWall)%f32
          || (glm.x (position on_the_wall) >=? rightWall)%f32
       then - glm.x (velocity on_the_wall)
       else glm.x (velocity on_the_wall)))%f32 = true.
Proof.
  apply (horizontal_speed_is_kept tenth_of_a_second lone_on_the_wall).
  - apply reachable_frame; [|reflexivity].
    apply reachable_start. intros n [= <-]. lia.
  - replace (particles lone_on_the_wall) with [on_the_wall]
      by (vm_compute; reflexivity).
    apply list_elem_of_here.
  - vm_compute; reflexivity.
  - vm_compute; reflexivity.
Defined.

(** ** Initialisation *)

Definition spawn_speed (k : Z) : float32 :=
  (F32.of_Z (k - 100) / F32.of_Z 100)%f32.

Definition spawn_speed_ok (k : Z) : bool :=
  (- F32.one <=? spawn_speed k)%f32 && (spawn_speed k <=? F32.lit 99 100)%f32.

Lemma spawn_speed_range r :
  (0 <= r)%Z -> spawn_speed_ok (Z.rem r 200) = true.
Proof.
  intros Hr.
  assert (0 <= Z.rem r 200 < 200)%Z as Hk by (apply Z.rem_bound_pos; lia).
  assert (List.forallb spawn_speed_ok (List.map Z.of_nat (List.seq 0 200))
          = true) as Hall by (vm_compute; reflexivity).
  rewrite List.forallb_forall in Hall. apply Hall.
  rewrite <- (Z2Nat.id (Z.rem r 200)) by lia.
  apply List.in_map, List.in_seq. lia.
Qed.

(** X10 -- initial velocities: whatever [rand()] returns (a non-negative
    [int]), each of the two velocity components a particle is spawned
    with lies between -1 and 0.99, and the third is zero. *)
Theorem spawn_velocity_bounded d :
  (0 <= rand_vx d)%Z -> (0 <= rand_vy d)%Z ->
  (- F32.one <=? glm.x (velocity (spawn_particle d)))%f32 = true
  ∧ (glm.x (velocity (spawn_particle d)) <=? F32.lit 99 100)%f32 = true
  ∧ (- F32.one <=? glm.y (velocity (spawn_particle d)))%f32 = true
  ∧ (glm.y (velocity (spawn_particle d)) <=? F32.lit 99 100)%f32 = true
  ∧ glm.z (velocity (spawn_particle d)) = F32.zero.
Proof.
  intros Hx Hy.
  pose proof (spawn_speed_range _ Hx) as [? ?]%andb_true_iff.
  pose proof (spawn_speed_range _ Hy) as [? ?]%andb_true_iff.
  done.
Qed.

Lemma spawn_velocity_bounded_witness :
  (- F32.one <=? glm.x (velocity (spawn_particle (heading_right 0))))%f32
  = true
  ∧ (glm.x (velocity (spawn_particle (heading_right 0)))
     <=? F32.lit 99 100)%f32 = true
  ∧ (- F32.one <=? glm.y (velocity (spawn_particle (heading_right 0))))%f32
    = true
  ∧ (glm.y (velocity (spawn_particle (heading_right 0)))
     <=? F32.lit 99 100)%f32 = true
  ∧ glm.z (velocity (spawn_particle (heading_right 0))) = F32.zero.
Proof.
  apply (spawn_velocity_bounded (heading_right 0)); by vm_compute.
Defined.

(** X11 -- what [VertexSpecification] builds: [NUM_PARTICLES] particles
    (none when the count is zero or negative), the [i]-th from the [i]-th
    set of draws, each with lifespan 1, the downward acceleration and a
    position and velocity in the plane z = 0, and a vertex buffer that is
    exactly the interleaved layout of that store; nothing else among the
    globals is touched. *)
Theorem VertexSpecification_builds_store_and_buffer arg spawn :
  let w := main arg spawn [] in
  NUM_PARTICLES w = default 100%Z arg
  ∧ length (particles w) = Z.to_nat (NUM_PARTICLES w)
  ∧ vertexData w = flatten (particles w)
  ∧ length (vertexData w) = 6 * length (particles w)
  ∧ (forall i p, particles w !! i = Some p ->
       p = spawn_particle (spawn i)
       ∧ lifespan p = F32.one
       ∧ acceleration p = spawn_acceleration
       ∧ glm.z (position p) = F32.zero
       ∧ glm.z (velocity p) = F32.zero)
  ∧ ((NUM_PARTICLES w <= 0)%Z -> particles w = [] ∧ vertexData w = [])
  ∧ (particleSizeValue w, initialCollide w, backgroundColor w, winnerFound w,
     gQuit w, console w, rand_calls w)
    = (particleSizeValue globals, initialCollide globals,
       backgroundColor globals, winnerFound globals, gQuit globals,
       console globals, rand_calls globals).
Proof.
  cbv zeta. change (main arg spawn []) with (start arg spawn).
  rewrite start_spec. cbn [NUM_PARTICLES particles vertexData].
  split_and!; try done.
  - by rewrite length_fmap, length_seq.
  - by rewrite length_flatten.
  - intros i p Hi. apply list_lookup_fmap_Some in Hi as (j & -> & Hj).
    apply lookup_seq in Hj as [-> _]. done.
  - intros Hn. by replace (Z.to_nat (default 100%Z arg)) with 0 by lia.
Qed.

(** ** What a frame draws *)

(** The two inputs of the vertex shader, [position] and [vertexColors]. *)
Record Vertex : Type := mkVertex {
  in_position : glm.vec3;
  in_vertexColors : glm.vec3
}.

(** Vertex [k] of a buffer, as the two [glVertexAttribPointer] calls of
    [VertexSpecification] lay it out: a stride of six floats, three floats
    of position at float 0 and three of colour at float 3.  A vertex that
    does not lie in the buffer has no defined value. *)
Definition fetch_vertex (buffer : list float32) (k : nat) : option Vertex :=
  match buffer !! (6 * k), buffer !! (6 * k + 1), buffer !! (6 * k + 2),
        buffer !! (6 * k + 3), buffer !! (6 * k + 4), buffer !! (6 * k + 5)
  with
  | Some x, Some y, Some z, Some r, Some g, Some b =>
      Some (mkVertex (glm.mk_vec3 x y z) (glm.mk_vec3 r g b))
  | _, _, _, _, _, _ => None
  end.

(** [PreDraw]: the clear colour and the [particleSize] uniform it sets;
    [MatrixID] is the location [glGetUniformLocation] finds for "MP", and
    the program exits when there is none. *)
Definition PreDraw (MatrixID : Z) (w : World) : option (glm.vec4 * float32) :=
  if (0 <=? MatrixID)%Z
  then Some (glm.mk_vec4 (glm.r4 (backgroundColor w))
               (glm.g4 (backgroundColor w)) (glm.b4 (backgroundColor w))
               F32.one,
             particleSizeValue w)
  else None.

(** [Draw]: the point size, and the vertices [glDrawArrays(GL_POINTS, 0,
    particles.size())] reads from the buffer on the GPU. *)
Definition Draw (gpu : list float32) (w : World)
  : float32 * list (option Vertex) :=
  (particleSizeValue w, fetch_vertex gpu <$> seq 0 (length (particles w))).

(** The drawing calls of one frame: they run between [updateParticles],
    whose last act is to upload all of [vertexData], and [winCheck]. *)
Definition frame_drawing (MatrixID : Z) (inp : FrameInput) (w : World)
  : option (glm.vec4 * float32) * (float32 * list (option Vertex)) :=
  let w := updateParticles (deltaTime inp) (draws inp) (Input (queue inp) w) in
  (PreDraw MatrixID w, Draw (vertexData w) w).

Lemma fetch_flatten l tail k p :
  l !! k = Some p ->
  fetch_vertex (flatten l ++ tail) k
  = Some (mkVertex (position p) (color p)).
Proof.
  intros Hk. pose proof (lookup_lt_Some _ _ _ Hk) as Hlt.
  rewrite <- (take_drop_middle l k p Hk).
  rewrite flatten_app, flatten_cons, <- !app_assoc.
  assert (length (flatten (take k l)) = 6 * k) as Hlen
    by (rewrite length_flatten, length_take; lia).
  unfold fetch_vertex.
  rewrite (lookup_app_r (flatten (take k l)) _ (6 * k)),
    (lookup_app_r (flatten (take k l)) _ (6 * k + 1)),
    (lookup_app_r (flatten (take k l)) _ (6 * k + 2)),
    (lookup_app_r (flatten (take k l)) _ (6 * k + 3)),
    (lookup_app_r (flatten (take k l)) _ (6 * k + 4)),
    (lookup_app_r (flatten (take k l)) _ (6 * k + 5)) by lia.
  rewrite Hlen.
  replace (6 * k - 6 * k) with 0 by lia.
  replace (6 * k + 1 - 6 * k) with 1 by lia.
  replace (6 * k + 2 - 6 * k) with 2 by lia.
  replace (6 * k + 3 - 6 * k) with 3 by lia.
  replace (6 * k + 4 - 6 * k) with 4 by lia.
  replace (6 * k + 5 - 6 * k) with 5 by lia.
  destruct p as [[? ? ?] [? ? ?] ? ? ? ?]. reflexivity.
Qed.

Lemma fetch_all_flatten l tail :
  fetch_vertex (flatten l ++ tail) <$> seq 0 (length l)
  = (fun p => Some (mkVertex (position p) (color p))) <$> l.
Proof.
  apply list_eq. intros k. rewrite !list_lookup_fmap.
  destruct (l !! k) as [p|] eqn:Hk; simpl.
  - rewrite lookup_seq_lt by (by eapply lookup_lt_Some). simpl.
    f_equal. by apply fetch_flatten.
  - rewrite lookup_seq_ge; [done|]. by apply lookup_ge_None.
Qed.

(** X12 -- what a frame draws: in every reachable world the draw call of
    a frame reads exactly the particles the frame leaves in the store, in
    store order, each with its own position and colour; the stale floats
    of eliminated particles that stay at the end of the buffer are never
    drawn.  The points are drawn at the size the update left, and the
    screen is cleared with the background colour the previous frame left,
    at alpha 1. *)
Theorem frame_draws_the_store MatrixID inp w :
  reachable w ->
  (0 <= MatrixID)%Z ->
  frame_drawing MatrixID inp w
  = (Some (glm.mk_vec4 (glm.r4 (backgroundColor w))
             (glm.g4 (backgroundColor w)) (glm.b4 (backgroundColor w))
             F32.one,
           particleSizeValue (frame inp w)),
     (particleSizeValue (frame inp w),
      (fun p => Some (mkVertex (position p) (color p)))
        <$> particles (frame inp w))).
Proof.
  intros Hw Hid. destruct (reachable_sizes_ok w Hw) as [Hlen Hroom].
  unfold frame_drawing, frame, PreDraw, Draw.
  set (w1 := updateParticles _ _ _).
  injection (winCheck_rest w1) as _ -> _ _ -> _ _.
  replace (0 <=? MatrixID)%Z with true by (symmetry; by apply Z.leb_le).
  assert (backgroundColor w1 = backgroundColor w) as ->.
  { subst w1.
    injection (updateParticles_win (deltaTime inp) (draws inp)
                 (Input (queue inp) w)) as -> _ _.
    by injection (Input_rest (queue inp) w) as _ _ _ -> _ _ _. }
  assert (vertexData w1
          = flatten (particles w1)
            ++ drop (6 * length (particles w1)) (vertexData w)) as ->.
  { subst w1. rewrite updateParticles_vertexData;
      rewrite ?Input_particles, ?Input_vertexData; [done|lia]. }
  by rewrite fetch_all_flatten.
Qed.

Lemma frame_draws_the_store_witness :
  frame_drawing 0 quiet_frame two_on_a_spot
  = (Some (glm.mk_vec4 (glm.r4 (backgroundColor two_on_a_spot))
             (glm.g4 (backgroundColor two_on_a_spot))
             (glm.b4 (backgroundColor two_on_a_spot)) F32.one,
           particleSizeValue (frame quiet_frame two_on_a_spot)),
     (particleSizeValue (frame quiet_frame two_on_a_spot),
      (fun p => Some (mkVertex (position p) (color p)))
        <$> particles (frame quiet_frame two_on_a_spot))).
Proof.
  apply (frame_draws_the_store 0 quiet_frame two_on_a_spot).
  - apply two_on_a_spot_reachable.
  - done.
Defined.

(** ** Loading a shader *)

Module Shader.
Import Ascii String.
Local Open Scope string_scope.

Definition newline : ascii := "010"%char.

(** The characters of a stream up to the first newline, and what follows
    that newline. *)
Fixpoint until_newline (stream : string) : string * string :=
  match stream with
  | EmptyString => (EmptyString, EmptyString)
  | String c rest =>
      if Ascii.eqb c newline then (EmptyString, rest)
      else let (line, rest) := until_newline rest in (String c line, rest)
  end.

(** [std::getline]: it fails when the stream is at its end, and otherwise
    gives the next line (without its newline) and the rest. *)
Definition getline (stream : string) : option (string * string) :=
  match stream with
  | EmptyString => None
  | _ => Some (until_newline stream)
  end.

(** The loop [while (std::getline(myFile, line)) result += line + '\n']. *)
Fixpoint read_lines (fuel : nat) (stream result : string) : string :=
  match fuel with
  | O => result
  | S fuel =>
      match getline stream with
      | Some (line, stream) =>
          read_lines fuel stream (result ++ (line ++ String newline ""))
      | None => result
      end
  end.

(** [file] is the content of the file at [filename], or [None] when it
    cannot be opened. *)
Definition LoadShaderAsString (file : option string) : string :=
  let result := "" in
  match file with
  | Some content => read_lines (S (String.length content)) content result
  | None => result
  end.

Fixpoint ends_with_newline (s : string) : bool :=
  match s with
  | EmptyString => false
  | String c EmptyString => Ascii.eqb c newline
  | String _ rest => ends_with_newline rest
  end.

(** A text with its last line closed. *)
Definition closed (s : string) : string :=
  match s with
  | EmptyString => ""
  | _ => if ends_with_newline s then s else s ++ String newline ""
  end.

Lemma append_nil_r s : s ++ "" = s.
Proof. induction s as [|c s IH]; simpl; by rewrite ?IH. Qed.

Lemma append_assoc s t u : (s ++ t) ++ u = s ++ (t ++ u).
Proof. induction s as [|c s IH]; simpl; by rewrite ?IH. Qed.

Lemma closed_cons c s : s <> "" -> closed (String c s) = String c (closed s).
Proof. destruct s as [|d s]; [done|]. intros _. simpl.
  by destruct (match s with "" => Ascii.eqb d newline | String _ _ => _ end).
Qed.

Lemma until_newline_closed s :
  s <> "" ->
  closed s
  = fst (until_newline s) ++ String newline (closed (snd (until_newline s)))
  ∧ String.length (snd (until_newline s)) < String.length s.
Proof.
  induction s as [|c s IH]; [done|]. intros _.
  cbn [until_newline]. destruct (Ascii.eqb c newline) eqn:Hc.
  - apply Ascii.eqb_eq in Hc as ->. cbn [fst snd String.length].
    split; [|lia]. destruct s as [|d s]; [done|].
    by rewrite closed_cons.
  - destruct s as [|d s].
    + simpl. rewrite Hc. split; [done|lia].
    + destruct IH as [IH1 IH2]; [done|].
      destruct (until_newline (String d s)) as [line rest].
      cbn [fst snd] in *. rewrite closed_cons by done. rewrite IH1.
      split; [done|]. cbn [String.length] in *. lia.
Qed.

Lemma read_lines_closed fuel stream result :
  String.length stream < fuel ->
  read_lines fuel stream result = result ++ closed stream.
Proof.
  revert stream result.
  induction fuel as [|fuel IH]; intros stream result Hfuel; [lia|].
  destruct stream as [|c s]; [by rewrite append_nil_r|].
  cbn [read_lines getline].
  destruct (until_newline_closed (String c s)) as [Hclosed Hlen]; [done|].
  destruct (until_newline (String c s)) as [line rest]. cbn [fst snd] in *.
  rewrite IH by lia. rewrite Hclosed, !append_assoc. done.
Qed.

(** X13 -- loading a shader: a file that cannot be opened gives the empty
    string, with no error raised; an empty file gives the empty string; a
    file whose last line ends in a newline is returned unchanged, and any
    other gets one newline appended.  Loading what was loaded returns it
    unchanged. *)
Theorem LoadShaderAsString_closes_last_line content :
  LoadShaderAsString None = ""
  ∧ LoadShaderAsString (Some "") = ""
  ∧ (ends_with_newline content = true ->
     LoadShaderAsString (Some content) = content)
  ∧ (content <> "" -> ends_with_newline content = false ->
     LoadShaderAsString (Some content) = content ++ String newline "")
  ∧ LoadShaderAsString (Some (LoadShaderAsString (Some content)))
    = LoadShaderAsString (Some content).
Proof.
  assert (forall s, LoadShaderAsString (Some s) = closed s) as Hload.
  { intros s. unfold LoadShaderAsString. by rewrite read_lines_closed by lia. }
  assert (forall s, s <> "" ->
            ends_with_newline (s ++ String newline "") = true) as Hends.
  { induction s as [|c s IH]; [done|]. intros _.
    destruct s as [|d s]; [done|]. by apply IH. }
  rewrite !Hload. split_and!; try done.
  - intros Hnl. destruct content; [done|]. unfold closed. by rewrite Hnl.
  - intros Hne Hnl. destruct content; [done|]. unfold closed. by rewrite Hnl.
  - destruct content as [|c s]; [done|]. unfold closed at 2.
    destruct (ends_with_newline (String c s)) eqn:Hnl.
    + unfold closed. by rewrite Hnl.
    + assert (ends_with_newline (String c s ++ String newline "") = true)
        as He by (by apply Hends).
      cbn [append] in *. unfold closed. by rewrite He, Hnl.
Qed.

Example LoadShaderAsString_two_lines :
  LoadShaderAsString
    (Some ("#version 410 core" ++ String newline "void main(){}"))
  = "#version 410 core" ++ String newline ("void main(){}" ++ String newline "").
Proof. reflexivity. Qed.

End Shader.
